(** * demo_dpm: a collapsed Gibbs sampler for a Dirichlet process mixture
      of binary vectors (Neal's Algorithm 3)

    Shallow embedding of [src/demo_dpm.py] (class [BinoChain]) and the
    properties its specification states about it.

    Conventions of the embedding.
    - numpy integer arrays are [list Z]; the boolean observation matrix is a
      list of rows, each a [list bool]. Labels are [int64]: the one addition
      on labels, the new label of [sample_c], wraps around.
    - Exactly representable quantities (pseudo-counts, occupancy counts, the
      [linspace] grid, uniform draws) are rationals [Q]; floating point
      rounding is not modelled.
    - The special functions of numpy/scipy ([log], [gammaln], [betaln],
      [stats.gamma.logpdf], [exp]) and the arithmetic on their results are an
      interface, [Numerics]; every theorem holds for every implementation.
    - The random source is an interface, [RandomSource], threaded explicitly.
    - Python exceptions are [None].
    - numpy arrays reachable from a [State] are shared mutable objects: they
      live in a [store] and a [State] holds a location. *)

From Stdlib Require Import ZArith QArith Qround Lqa List Sorted Permutation.
From stdpp Require Import base option list sorting gmap sets.

#[local] Set Warnings "-clear-no-such-hyp".

(** ** Interfaces of the numeric and random libraries *)

(** Values of the floating-point special functions. [r_exp] takes such a
    value back to a weight that can be normalised and compared with a uniform
    draw. *)
Class Numerics (R : Type) := {
  r_zero : R;
  r_of_Z : Z → R;
  r_add : R → R → R;
  r_sub : R → R → R;
  r_mul : R → R → R;
  r_leb : R → R → bool;
  r_log : Q → R;
  r_gammaln : Q → R;
  r_betaln : Q → Q → R;
  (* stats.gamma.logpdf x shape scale *)
  r_gamma_logpdf : Q → Q → Q → R;
  r_exp : R → Q;
}.

(** The exponential is positive: the only fact about the special functions
    that termination of a log-mode draw needs. *)
Class NumericsLaws (R : Type) `{Numerics R} := {
  r_exp_pos : ∀ x : R, (0 < r_exp x)%Q;
}.

(** numpy's [RandomState]: [random_sample], [gamma], [beta], and seeding. *)
Class RandomSource (G : Type) := {
  rng_seed : Z → G;
  rng_uniform : G → Q * G;
  (* rng.gamma(shape, scale=scale) *)
  rng_gamma : Q → Q → G → Q * G;
  (* rng.beta(a, b) *)
  rng_beta : Q → Q → G → Q * G;
}.

Class RandomSourceLaws (G : Type) `{RandomSource G} := {
  rng_uniform_range : ∀ g, (0 <= (rng_uniform g).1 ∧ (rng_uniform g).1 < 1)%Q;
  rng_gamma_pos : ∀ shape scale g,
    (0 < shape)%Q → (0 < scale)%Q → (0 < (rng_gamma shape scale g).1)%Q;
}.

(** [size=k] draws are [k] successive draws from the stream. *)
Fixpoint draws {G A : Type} (draw : G → A * G) (k : nat) (g : G) : list A * G :=
  match k with
  | O => ([], g)
  | S k' =>
      let '(a, g1) := draw g in
      let '(rest, g2) := draws draw k' g1 in
      (a :: rest, g2)
  end.

(** ** numpy helpers on integer arrays *)

Fixpoint insert_unique (z : Z) (l : list Z) : list Z :=
  match l with
  | [] => [z]
  | y :: t =>
      if (z <? y)%Z then z :: l
      else if (z =? y)%Z then l
      else y :: insert_unique z t
  end.

(** [numpy.unique]: the sorted distinct values. *)
Definition unique (l : list Z) : list Z := foldr insert_unique [] l.

(** [sum(a == v)] on an integer array. *)
Definition count_eq (v : Z) (l : list Z) : Z :=
  Z.of_nat (length (filter (λ y, y = v) l)).

(** [numpy.delete(a, i)] for [i] from [range]: IndexError out of range. *)
Definition np_delete (l : list Z) (i : nat) : option (list Z) :=
  if decide (i < length l)%nat then Some (delete i l) else None.

(** [unique(a, return_inverse=True)[1]]: the rank of each entry among the
    distinct values. *)
Fixpoint index_of (v : Z) (l : list Z) : nat :=
  match l with
  | [] => O
  | y :: t => if (v =? y)%Z then O else S (index_of v t)
  end.

Definition unique_inverse (l : list Z) : list Z :=
  map (λ v, Z.of_nat (index_of v (unique l))) l.

(** numpy's [int64], the element type of the label arrays: the range, and
    the result of an addition, which wraps around when it leaves the range. *)
Definition int64_min : Z := (-9223372036854775808)%Z.

Definition int64_max : Z := 9223372036854775807%Z.

Definition wrap64 (z : Z) : Z :=
  ((z + 9223372036854775808) mod 18446744073709551616 - 9223372036854775808)%Z.

(** ** Data *)

Abbreviation matrix := (list (list bool)).

(** [params]: the hyperparameter mapping, read at the three keys the chain
    uses. *)
Record Params := {
  alpha_shape : Q;
  alpha_scale : Q;
  beta : Q;
}.

(** [data_params = dict(n=..., dim=...)]. *)
Record DataParams := {
  dp_n : nat;
  dp_dim : nat;
}.

Abbreviation loc := positive.

(** The arrays held by chain states. *)
Abbreviation store := (gmap loc (list Z)).

(** [State.__slots__ = ['alpha', 'c']]; [c] is a reference to an array. *)
Record State := {
  alpha : Q;
  c : loc;
}.

(** [copy(a)]: a new array with the same contents. *)
Definition np_copy (l : loc) (σ : store) : option (loc * store) :=
  arr ← σ !! l;
  let l' := fresh (dom σ) in
  Some (l', <[l' := arr]> σ).

(** A newly created array. *)
Definition np_alloc (arr : list Z) (σ : store) : loc * store :=
  let l' := fresh (dom σ) in (l', <[l' := arr]> σ).

(** [a[i] = v] in place. *)
Definition np_setitem (l : loc) (i : nat) (v : Z) (σ : store) : option store :=
  arr ← σ !! l;
  if decide (i < length arr)%nat then Some (<[l := <[i := v]> arr]> σ) else None.

(** ** The chain *)

Section Chain.
Context {R G : Type} `{!Numerics R} `{!RandomSource G}.

(** *** Categorical sampler *)

(** Modelled from the spec: the normalising constant of
    [helpers.discrete_sample], the sum of the weights. Sums are kept in
    lowest terms. *)
Definition q_sum (w : list Q) : Q := foldr (λ x s, Qred (x + s)) 0%Q w.

(** Modelled from the spec: the search of [helpers.discrete_sample] for the
    smallest index whose cumulative sum exceeds [u]; [k] is the index of the
    head of [ps] and [acc] the mass before it. *)
Fixpoint first_exceeding (u acc : Q) (k : nat) (ps : list Q) : option nat :=
  match ps with
  | [] => None
  | p :: t =>
      let acc' := Qred (acc + p) in
      if Qlt_le_dec u acc' then Some k
      else first_exceeding u acc' (S k) t
  end.

(** Modelled from the spec: [helpers.discrete_sample] with the default
    [log_mode=False] is not among the sources. Section 4.1 of the
    specification: fail when every weight is zero, normalise to a
    probability vector, draw one uniform variate [u], return the smallest
    index whose cumulative probability exceeds [u]. *)
Definition discrete_sample (w : list Q) (g : G) : option (nat * G) :=
  if forallb (λ x, Qeq_bool x 0) w then None
  else
    let total := q_sum w in
    let '(u, g') := rng_uniform g in
    idx ← first_exceeding u 0%Q O (map (λ x, x / total)%Q w);
    Some (idx, g').

(** Modelled from the spec: [max(w)] of the log-mode stabilisation; there is
    no maximum of an empty vector. *)
Definition r_max (w : list R) : option R :=
  match w with
  | [] => None
  | x :: t => Some (foldl (λ m y, if r_leb m y then y else m) x t)
  end.

(** Modelled from the spec: [helpers.discrete_sample] with [log_mode=True]
    is not among the sources. Section 4.1 of the specification: subtract
    [max(w)] from every entry, exponentiate, then proceed as in the plain
    mode. *)
Definition discrete_sample_log (w : list R) (g : G) : option (nat * G) :=
  m ← r_max w;
  discrete_sample (map (λ x, r_exp (r_sub x m)) w) g.

(** *** sample_latent *)

(** Lines 68-72: the weight vector [p] built from the prefix [c[:i]]. *)
Definition latent_weights (c_before : list Z) (a : Q) : list Q :=
  let cluster_ids := unique c_before in
  map (λ cluster_id, inject_Z (count_eq cluster_id cluster_ids)) cluster_ids
    ++ [a].

(** Lines 66-73: the loop over [range(1, n)], writing [c[i]] in place. *)
Fixpoint latent_loop (idxs : list nat) (a : Q) (c : list Z) (g : G)
  : option (list Z * G) :=
  match idxs with
  | [] => Some (c, g)
  | i :: rest =>
      let c_before := take i c in
      '(idx, g1) ← discrete_sample (latent_weights c_before a) g;
      latent_loop rest a (<[i := Z.of_nat idx]> c) g1
  end.

Definition sample_latent (params : Params) (data_params : DataParams)
    (σ : store) (g : G) : option (State * store * G) :=
  let '(a, g1) := rng_gamma (alpha_shape params) (alpha_scale params) g in
  let n := dp_n data_params in
  '(c, g2) ← latent_loop (seq 1 (n - 1)) a (replicate n 0%Z) g1;
  let '(l, σ') := np_alloc c σ in
  Some ({| alpha := a; c := l |}, σ', g2).

(** [start_state] is a draw from the prior. *)
Definition start_state (params : Params) (data_params : DataParams)
    (σ : store) (g : G) : option (State * store * G) :=
  sample_latent params data_params σ g.

(** *** sample_alpha *)

(** [linspace(.1, 10, 1000)[k]]. *)
Definition grid_point (k : nat) : Q :=
  (1 # 10) + inject_Z (Z.of_nat k) * ((10 - (1 # 10)) / 999).

Definition grid : list Q := map grid_point (seq 0 1000).

Definition calc_alpha_llh (params : Params) (n_clusters n : nat) (a : Q) : R :=
  let prior := r_gamma_logpdf a (alpha_shape params) (alpha_scale params) in
  let lh :=
    r_sub (r_add (r_gammaln a)
                 (r_mul (r_of_Z (Z.of_nat n_clusters)) (r_log a)))
          (r_gammaln (a + inject_Z (Z.of_nat n))) in
  r_add prior lh.

Definition sample_alpha (state : State) (params : Params) (n : nat)
    (σ : store) (g : G) : option (Q * G) :=
  state_c ← σ !! c state;
  let n_clusters := length (unique state_c) in
  let alpha_llh := map (calc_alpha_llh params n_clusters n) grid in
  '(idx, g') ← discrete_sample_log alpha_llh g;
  a ← grid !! idx;
  Some (a, g').
(** *** sample_c *)

(** [data[i].astype(int)], entrywise. *)
Definition b2q (b : bool) : Q := if b then 1%Q else 0%Q.

(** [c_in = (c == cluster_id); c_in[i] = False]. *)
Definition members_mask (carr : list Z) (cluster_id : Z) (i : nat) : list bool :=
  <[i := false]> (map (λ y, bool_decide (y = cluster_id)) carr).

Fixpoint mask_select (mask : list bool) (data : matrix) : matrix :=
  match mask, data with
  | b :: m, r :: d => if b then r :: mask_select m d else mask_select m d
  | _, _ => []
  end.

(** [data[c_in]]: IndexError when the mask and the matrix disagree in
    length. *)
Definition mask_rows (mask : list bool) (data : matrix) : option matrix :=
  if decide (length mask = length data) then Some (mask_select mask data)
  else None.

(** [sum(rows == b, 0)]: per feature dimension, the number of rows holding
    [b]. *)
Definition col_counts (b : bool) (rows : matrix) (dim : nat) : list Z :=
  map (λ d, Z.of_nat (length (filter (λ r : list bool, r !! d = Some b) rows)))
      (seq 0 dim).

(** [v + counts], entrywise. *)
Definition v_add_counts (v : list Q) (counts : list Z) : list Q :=
  zip_with (λ b t, b + inject_Z t)%Q v counts.

(** [sum(...)] of numpy over a vector of special-function values. *)
Definition r_sum (ts : list R) : R := foldl r_add r_zero ts.

(** Line 109, entrywise:
    [betaln(alpha + x, beta + (1 - x)) - betaln(alpha, beta)]. *)
Fixpoint lh_terms (avec bvec x : list Q) : list R :=
  match avec, bvec, x with
  | a :: avec', b :: bvec', xd :: x' =>
      r_sub (r_betaln (a + xd) (b + (1 - xd))) (r_betaln a b)
        :: lh_terms avec' bvec' x'
  | _, _, _ => []
  end.

(** Line 112, entrywise:
    [betaln(beta + x, beta - x + 1) - betaln(beta, beta)]. *)
Fixpoint lh_terms_new (bvec x : list Q) : list R :=
  match bvec, x with
  | b :: bvec', xd :: x' =>
      r_sub (r_betaln (b + xd) (b - xd + 1)) (r_betaln b b)
        :: lh_terms_new bvec' x'
  | _, _ => []
  end.

(** What one iteration of the loop of lines 102-110 computes for its
    cluster: [count], and the vectors [alpha] and [beta] after lines 107 and
    108. *)
Record ClusterTerms := {
  ct_count : Z;
  ct_alpha : list Q;
  ct_beta : list Q;
}.

(** Lines 104, 109 and 110: [p[j] = lh + prior]. *)
Definition cluster_weight (x : list Q) (t : ClusterTerms) : R :=
  let prior := r_log (inject_Z (ct_count t)) in
  let lh := r_sum (lh_terms (ct_alpha t) (ct_beta t) x) in
  r_add lh prior.

(** Lines 102-108. The local variable [beta] is rebound on line 108, so
    [bvec], its value on entry to an iteration, is the value the previous
    iteration left. The scalar argument [beta] is carried as the constant
    vector numpy broadcasts it to. *)
Fixpoint cluster_loop (cluster_ids : list Z) (i : nat) (carr c_diff : list Z)
    (data : matrix) (dim : nat) (bvec : list Q)
  : option (list ClusterTerms * list Q) :=
  match cluster_ids with
  | [] => Some ([], bvec)
  | cluster_id :: rest =>
      let count := count_eq cluster_id c_diff in
      let c_in := members_mask carr cluster_id i in
      rows ← mask_rows c_in data;
      let avec := v_add_counts bvec (col_counts true rows dim) in
      let bvec1 := v_add_counts bvec (col_counts false rows dim) in
      '(ts, bfinal) ← cluster_loop rest i carr c_diff data dim bvec1;
      Some ({| ct_count := count; ct_alpha := avec; ct_beta := bvec1 |} :: ts,
            bfinal)
  end.

(** Lines 94-113: the vector [p] of log-weights. *)
Definition sample_c_weights (i : nat) (carr : list Z) (data : matrix)
    (dp_alpha : Q) (beta0 : Q) : option (list R) :=
  c_diff ← np_delete carr i;
  let cluster_ids := unique c_diff in
  row ← data !! i;
  let x := map b2q row in
  '(ts, bvec) ← cluster_loop cluster_ids i carr c_diff data (length x)
                  (replicate (length x) beta0);
  let prior := r_log dp_alpha in
  let lh := r_sum (lh_terms_new bvec x) in
  Some (map (cluster_weight x) ts ++ [r_add prior lh]).

(** Lines 93-125 with [debug=False]. [carr] is the contents of the array [c]
    at the time of the call; the function does not write to it. On line 119
    [cluster_ids[-1] + 1] is an [int64] addition. *)
Definition sample_c (i : nat) (carr : list Z) (params : Params) (data : matrix)
    (dp_alpha : Q) (beta0 : Q) (g : G) : option (Z * G) :=
  c_diff ← np_delete carr i;
  let cluster_ids := unique c_diff in
  p ← sample_c_weights i carr data dp_alpha beta0;
  '(idx, g') ← discrete_sample_log p g;
  if decide (idx = (length p - 1)%nat) then
    last_id ← last cluster_ids;
    Some (wrap64 (last_id + 1), g')
  else
    c_return ← cluster_ids !! idx;
    Some (c_return, g').

(** *** transition *)

(** Lines 41-42: the loop over [range(n)], on the array at [cl]. *)
Fixpoint sweep (idxs : list nat) (cl : loc) (params : Params) (data : matrix)
    (a : Q) (beta0 : Q) (σ : store) (g : G) : option (store * G) :=
  match idxs with
  | [] => Some (σ, g)
  | i :: rest =>
      carr ← σ !! cl;
      '(v, g1) ← sample_c i carr params data a beta0 g;
      σ1 ← np_setitem cl i v σ;
      sweep rest cl params data a beta0 σ1 g1
  end.

Definition transition (state : State) (params : Params) (data : matrix)
    (σ : store) (g : G) : option (State * store * G) :=
  let n := length data in
  '(a, g1) ← sample_alpha state params n σ g;
  '(cl, σ1) ← np_copy (c state) σ;
  '(σ2, g2) ← sweep (seq 0 n) cl params data a (beta params) σ1 g1;
  Some ({| alpha := a; c := cl |}, σ2, g2).

(** *** sample_data *)

(** Lines 55-57: row [i] is [rng.random_sample(size=dim) < clusters[c[i]]]. *)
Fixpoint data_loop (idxs : list nat) (cinv : list Z) (clusters : list Q)
    (dim : nat) (x : matrix) (g : G) : option (matrix * G) :=
  match idxs with
  | [] => Some (x, g)
  | i :: rest =>
      ci ← cinv !! i;
      cluster ← clusters !! Z.to_nat ci;
      let '(us, g1) := draws rng_uniform dim g in
      let row := map (λ u, negb (Qle_bool cluster u)) us in
      data_loop rest cinv clusters dim (<[i := row]> x) g1
  end.

Definition sample_data (state : State) (params : Params)
    (data_params : DataParams) (σ : store) (g : G) : option (matrix * G) :=
  state_c ← σ !! c state;
  let cinv := unique_inverse state_c in
  let n_clusters := length (unique cinv) in
  let '(clusters, g1) :=
    draws (rng_beta (beta params) (beta params)) n_clusters g in
  let n := dp_n data_params in
  let dim := dp_dim data_params in
  data_loop (seq 0 n) cinv clusters dim (replicate n (replicate dim false)) g1.

(** ** The specification's own formulas

    Written from the specification's words, to be compared with the
    definitions above. *)

(** Section 4.3, step 3: the posterior Beta parameters of cluster
    [cluster_id], [(beta + #true, beta + #false)] per feature dimension over
    the other members of the cluster, with [beta0] the prior pseudo-count. *)
Definition spec_cluster_terms (i : nat) (carr : list Z) (data : matrix)
    (dim : nat) (beta0 : Q) (cluster_id : Z) : option ClusterTerms :=
  c_diff ← np_delete carr i;
  rows ← mask_rows (members_mask carr cluster_id i) data;
  Some {| ct_count := count_eq cluster_id c_diff;
          ct_alpha := v_add_counts (replicate dim beta0) (col_counts true rows dim);
          ct_beta := v_add_counts (replicate dim beta0) (col_counts false rows dim) |}.

(** Section 4.3, steps 2-4: [log(count)] plus the predictive sum. *)
Definition spec_cluster_weight (x : list Q) (t : ClusterTerms) : R :=
  r_add (r_log (inject_Z (ct_count t)))
        (r_sum (lh_terms (ct_alpha t) (ct_beta t) x)).

(** Section 4.3, new cluster: [log(alpha)] plus the predictive sum at the
    prior parameters [(beta, beta)]. *)
Definition spec_new_weight (dp_alpha beta0 : Q) (x : list Q) : R :=
  r_add (r_log dp_alpha)
        (r_sum (lh_terms (replicate (length x) beta0)
                         (replicate (length x) beta0) x)).

Definition spec_sample_c_weights (i : nat) (carr : list Z) (data : matrix)
    (dp_alpha : Q) (beta0 : Q) : option (list R) :=
  c_diff ← np_delete carr i;
  row ← data !! i;
  let x := map b2q row in
  ts ← mapM (spec_cluster_terms i carr data (length x) beta0) (unique c_diff);
  Some (map (spec_cluster_weight x) ts ++ [spec_new_weight dp_alpha beta0 x]).

(** Section 4.5: CRP weights, the occupancy count of every existing cluster
    among the earlier observations, then [alpha]. *)
Definition crp_weights (c_before : list Z) (a : Q) : list Q :=
  map (λ cluster_id, inject_Z (count_eq cluster_id c_before)) (unique c_before)
    ++ [a].

(** Section 4.4: the sweep as a fold over the label vector, entry [i]
    replaced by the update computed from the vector as it then stands. *)
Fixpoint sweep_spec (idxs : list nat) (carr : list Z) (params : Params)
    (data : matrix) (a : Q) (beta0 : Q) (g : G) : option (list Z * G) :=
  match idxs with
  | [] => Some (carr, g)
  | i :: rest =>
      '(v, g1) ← sample_c i carr params data a beta0 g;
      sweep_spec rest (<[i := v]> carr) params data a beta0 g1
  end.

(** Section 4.4: the next state's [alpha] and labels, and the random source
    after the call. *)
Definition transition_spec (carr : list Z) (state : State) (params : Params)
    (data : matrix) (σ : store) (g : G) : option (Q * list Z * G) :=
  let n := length data in
  '(a, g1) ← sample_alpha state params n σ g;
  '(carr', g2) ← sweep_spec (seq 0 n) carr params data a (beta params) g1;
  Some (a, carr', g2).

(** Section 4.5: one Bernoulli probability per cluster and feature
    dimension. *)
Fixpoint data_loop_spec (idxs : list nat) (cinv : list Z)
    (clusters : list (list Q)) (dim : nat) (x : matrix) (g : G)
  : option (matrix * G) :=
  match idxs with
  | [] => Some (x, g)
  | i :: rest =>
      ci ← cinv !! i;
      cluster ← clusters !! Z.to_nat ci;
      let '(us, g1) := draws rng_uniform dim g in
      let row := zip_with (λ u pr, negb (Qle_bool pr u)) us cluster in
      data_loop_spec rest cinv clusters dim (<[i := row]> x) g1
  end.

Definition sample_data_spec (state : State) (params : Params)
    (data_params : DataParams) (σ : store) (g : G) : option (matrix * G) :=
  state_c ← σ !! c state;
  let cinv := unique_inverse state_c in
  let n_clusters := length (unique cinv) in
  let n := dp_n data_params in
  let dim := dp_dim data_params in
  let '(clusters, g1) :=
    draws (draws (rng_beta (beta params) (beta params)) dim) n_clusters g in
  data_loop_spec (seq 0 n) cinv clusters dim
    (replicate n (replicate dim false)) g1.

(** What a caller can see of a transition: the new [alpha], the new labels
    and the random source afterwards. *)
Definition observe (res : option (State * store * G))
  : option (Q * option (list Z) * G) :=
  '(s, σ', g') ← res;
  Some (alpha s, σ' !! c s, g').

(** ** Invariants *)

(** Section 3: [len(c) == n], every label non-negative, [alpha > 0]. *)
Definition valid_state (n : nat) (σ : store) (s : State) : Prop :=
  ∃ carr, σ !! c s = Some carr ∧ length carr = n
          ∧ Forall (λ z, 0 ≤ z)%Z carr ∧ (0 < alpha s)%Q.

(** Every label of the state is at most [hi]. *)
Definition labels_at_most (hi : Z) (σ : store) (s : State) : Prop :=
  ∃ carr, σ !! c s = Some carr ∧ Forall (λ z, z ≤ hi)%Z carr.

(** The labels in use are exactly [0, ..., k-1]. *)
Definition contiguous (k : nat) (l : list Z) : Prop :=
  ∀ z, z ∈ l ↔ (0 ≤ z < Z.of_nat k)%Z.

(** The loop invariant of lines 66-73: before index [i] is processed every
    prefix [c[:j]], [1 <= j <= i], uses a contiguous set of labels. *)
Definition prefixes_contiguous (i : nat) (carr : list Z) : Prop :=
  ∀ j, (1 ≤ j ≤ i)%nat → ∃ k, (1 ≤ k)%nat ∧ contiguous k (take j carr).

End Chain.

(** ** Executable instances of the interfaces

    Used to run the model on concrete inputs. *)

(** A linear congruential generator. The gamma and beta draws are
    deterministic functions of one uniform draw: they have the right ranges,
    not the right distributions. *)
Module Lcg.

Definition modulus : positive := 2147483648.

Definition next (s : Z) : Z := ((1103515245 * s + 12345) mod Zpos modulus)%Z.

Definition uniform (s : Z) : Q * Z :=
  let s' := next s in (Qmake s' modulus, s').

Definition gamma (shape scale : Q) (s : Z) : Q * Z :=
  let '(u, s') := uniform s in (Qred (shape * scale * (u + (1 # 2))), s').

Definition beta_draw (a b : Q) (s : Z) : Q * Z :=
  let '(u, s') := uniform s in (Qred ((2 * u + 1) / 4), s').

#[global] Instance source : RandomSource Z := {|
  rng_seed := λ seed, seed;
  rng_uniform := uniform;
  rng_gamma := gamma;
  rng_beta := beta_draw;
|}.

End Lcg.

(** Coarse fixed-point approximations of the special functions, in units of
    [1/65536]. *)
Module Approx.

Definition ulp : positive := 65536.

(** Round down to a multiple of [1/65536]. *)
Definition fx (q : Q) : Q := Qmake (Qfloor (q * inject_Z (Zpos ulp))) ulp.

(** [1 + y + y^2/2], for [0 <= y]. *)
Definition exp_pos (y : Q) : Q := 1 + y + y * y / 2.

(** The result is rounded up, so that it is never zero. *)
Definition exp (x : Q) : Q :=
  let e := if Qlt_le_dec x 0 then / exp_pos (- x) else exp_pos x in
  Qmake (Qfloor (e * inject_Z (Zpos ulp)) + 1) ulp.

(** [2 (z + z^3/3)] with [z = (q - 1)/(q + 1)]. *)
Definition log (q : Q) : Q :=
  if Qlt_le_dec 0 q then
    let z := Qred ((q - 1) / (q + 1)) in fx (2 * (z + z * z * z / 3))
  else (-1000)%Q.

(** Stirling's formula with one correction term. *)
Definition gammaln (x : Q) : Q :=
  fx ((x - (1 # 2)) * log x - x + (919 # 1000) + / (12 * x)).

Definition betaln (a b : Q) : Q :=
  Qred (gammaln a + gammaln b - gammaln (a + b)).

Definition gamma_logpdf (x shape scale : Q) : Q :=
  fx ((shape - 1) * log (x / scale) - x / scale - gammaln shape - log scale).

#[global] Instance numerics : Numerics Q := {|
  r_zero := 0%Q;
  r_of_Z := inject_Z;
  r_add := λ x y, Qred (x + y);
  r_sub := λ x y, Qred (x - y);
  r_mul := λ x y, fx (x * y);
  r_leb := Qle_bool;
  r_log := log;
  r_gammaln := gammaln;
  r_betaln := betaln;
  r_gamma_logpdf := gamma_logpdf;
  r_exp := exp;
|}.

End Approx.

(** A random source that also counts the beta variates drawn from it. *)
Module Counting.
Section Counting.
Context {G : Type} `{!RandomSource G}.

Definition lift {A : Type} (draw : G → A * G) (gk : G * nat) : A * (G * nat) :=
  let '(a, g') := draw gk.1 in (a, (g', gk.2)).

Definition beta_draw (a b : Q) (gk : G * nat) : Q * (G * nat) :=
  let '(x, g') := rng_beta a b gk.1 in (x, (g', S gk.2)).

Definition source : RandomSource (G * nat) := {|
  rng_seed := λ seed, (rng_seed seed, O);
  rng_uniform := lift rng_uniform;
  rng_gamma := λ shape scale, lift (rng_gamma shape scale);
  rng_beta := beta_draw;
|}.

End Counting.
End Counting.

(** ** Concrete inputs *)

Definition ex_params : Params :=
  {| alpha_shape := 1; alpha_scale := 1; beta := 1 |}.

Definition ex_labels : list Z := [0; 0; 1]%Z.

Definition ex_data : matrix := [[true]; [false]; [true]].

Definition ex_state : State := {| alpha := 1; c := 1%positive |}.

Definition ex_store : store := {[ 1%positive := ex_labels ]}.



Definition top_data : matrix := [[true]; [true]].

(** * Properties *)

(** ** [unique]: sorted, duplicate-free, same elements *)

Section Unique.
Implicit Types (l : list Z) (z x : Z).

Lemma elem_of_insert_unique z l x :
  x ∈ insert_unique z l ↔ x = z ∨ x ∈ l.
Proof.
  induction l as [|y t IH]; simpl.
  - rewrite list_elem_of_singleton. set_solver.
  - destruct (Z.ltb_spec z y).
    + by rewrite elem_of_cons.
    + destruct (Z.eqb_spec z y) as [->|Hne].
      * rewrite elem_of_cons. naive_solver.
      * rewrite !elem_of_cons, IH. naive_solver.
Qed.

Lemma elem_of_unique l x : x ∈ unique l ↔ x ∈ l.
Proof.
  induction l as [|y t IH]; simpl; [done|].
  rewrite elem_of_insert_unique, IH, elem_of_cons. done.
Qed.

Lemma insert_unique_sorted z l :
  StronglySorted Z.lt l → StronglySorted Z.lt (insert_unique z l).
Proof.
  induction 1 as [|y t Hs IH Hy]; simpl.
  - repeat constructor.
  - destruct (Z.ltb_spec z y).
    + constructor; [by constructor|].
      constructor; [done|].
      eapply Forall_impl; [exact Hy|]. intros; simpl in *; lia.
    + destruct (Z.eqb_spec z y) as [->|Hne]; [by constructor|].
      constructor; [done|].
      apply Forall_forall. intros w Hw.
      apply elem_of_insert_unique in Hw as [->|Hw]; [lia|].
      rewrite Forall_forall in Hy. by apply Hy.
Qed.

Lemma unique_sorted l : StronglySorted Z.lt (unique l).
Proof.
  induction l; simpl; [constructor|by apply insert_unique_sorted].
Qed.

Lemma sorted_lt_NoDup l : StronglySorted Z.lt l → NoDup l.
Proof.
  induction 1 as [|y t Hs IH Hy]; constructor; [|done].
  intros Hin. rewrite Forall_forall in Hy. specialize (Hy _ Hin). lia.
Qed.

Lemma unique_NoDup l : NoDup (unique l).
Proof. apply sorted_lt_NoDup, unique_sorted. Qed.

Lemma unique_Permutation l1 l2 : l1 ≡ₚ l2 → unique l1 = unique l2.
Proof.
  intros Hp.
  apply (StronglySorted_unique_strong Z.lt); [intros; lia|apply unique_sorted..|].
  apply NoDup_Permutation; [apply unique_NoDup..|].
  intros x. rewrite !elem_of_unique. by rewrite Hp.
Qed.

Lemma length_insert_unique z l :
  length (insert_unique z l) = length l
  ∨ length (insert_unique z l) = S (length l).
Proof.
  induction l as [|y t IH]; simpl; [by right|].
  destruct (z <? y)%Z; [by right|].
  destruct (z =? y)%Z; [by left|].
  simpl. destruct IH as [->| ->]; auto.
Qed.

(** The last entry of a sorted array is its maximum. *)
Lemma sorted_last_max l m :
  StronglySorted Z.lt l → last l = Some m → ∀ x, x ∈ l → (x ≤ m)%Z.
Proof.
  induction 1 as [|y t Hs IH Hy]; [done|].
  intros Hlast x Hx. destruct t as [|y' t'].
  - simpl in Hlast. apply list_elem_of_singleton in Hx. naive_solver lia.
  - change (last (y' :: t') = Some m) in Hlast.
    apply elem_of_cons in Hx as [->|Hx]; [|by apply IH].
    assert (m ∈ y' :: t') as Hm by (by apply last_Some_elem_of).
    rewrite Forall_forall in Hy. specialize (Hy _ Hm). lia.
Qed.

Lemma unique_nil_inv l : unique l = [] → l = [].
Proof.
  destruct l as [|y t]; [done|]. intros Hu.
  assert (y ∈ unique (y :: t)) as Hy by (apply elem_of_unique; left).
  rewrite Hu in Hy. by apply elem_of_nil in Hy.
Qed.

Lemma filter_eq_absent l x : x ∉ l → filter (λ y, y = x) l = [].
Proof.
  induction l as [|y t IH]; [done|]. intros Hx.
  rewrite filter_cons. destruct (decide (y = x)) as [->|Hne].
  - exfalso. apply Hx. left.
  - apply IH. intros Hin. apply Hx. by right.
Qed.

(** In a duplicate-free array every entry occurs once. *)
Lemma count_eq_NoDup l x : NoDup l → x ∈ l → count_eq x l = 1%Z.
Proof.
  unfold count_eq. induction 1 as [|y t Hy Hnd IH]; intros Hx.
  - by apply elem_of_nil in Hx.
  - rewrite filter_cons. destruct (decide (y = x)) as [->|Hne].
    + simpl. by rewrite filter_eq_absent.
    + apply elem_of_cons in Hx as [->|Hx]; [done|]. by apply IH.
Qed.

Lemma count_eq_pos l x : x ∈ l → (1 ≤ count_eq x l)%Z.
Proof.
  unfold count_eq. induction l as [|y t IH]; intros Hx.
  - by apply elem_of_nil in Hx.
  - rewrite filter_cons. destruct (decide (y = x)) as [->|Hne]; simpl; [lia|].
    apply elem_of_cons in Hx as [->|Hx]; [done|]. by apply IH.
Qed.

End Unique.

(** ** [int64] addition *)

Lemma wrap64_id (z : Z) : (int64_min ≤ z ≤ int64_max)%Z → wrap64 z = z.
Proof.
  unfold int64_min, int64_max, wrap64. intros Hz.
  rewrite Z.mod_small by lia. lia.
Qed.

Lemma wrap64_range (z : Z) : (int64_min ≤ wrap64 z ≤ int64_max)%Z.
Proof.
  unfold int64_min, int64_max, wrap64.
  pose proof (Z.mod_pos_bound (z + 9223372036854775808) 18446744073709551616).
  lia.
Qed.

Lemma wrap64_max : wrap64 (int64_max + 1) = int64_min.
Proof. reflexivity. Qed.

(** ** The option monad, by rewriting *)

Lemma bind_Some_eq {A B : Type} (f : A → option B) (x : A) :
  Some x ≫= f = f x.
Proof. reflexivity. Qed.

Lemma bind_None_eq {A B : Type} (f : A → option B) : None ≫= f = None.
Proof. reflexivity. Qed.

(** ** The categorical sampler *)

Section Sampler.
Context {R G : Type} `{!Numerics R} `{!RandomSource G}.

Lemma q_sum_cons (x : Q) (w : list Q) : (q_sum (x :: w) == x + q_sum w)%Q.
Proof. unfold q_sum. simpl. apply Qred_correct. Qed.

Lemma q_sum_nonneg (w : list Q) :
  Forall (λ x, 0 <= x)%Q w → (0 <= q_sum w)%Q.
Proof.
  induction 1 as [|x t Hx Ht IH]; [apply Qle_refl|].
  rewrite q_sum_cons. lra.
Qed.

Lemma q_sum_pos (w : list Q) :
  Forall (λ x, 0 <= x)%Q w → Exists (λ x, 0 < x)%Q w → (0 < q_sum w)%Q.
Proof.
  induction 1 as [|x t Hx Ht IH]; intros Hex.
  - by apply Exists_nil in Hex.
  - rewrite q_sum_cons. pose proof (q_sum_nonneg t Ht).
    apply Exists_cons in Hex as [Hpos|Hex]; [lra|].
    specialize (IH Hex). lra.
Qed.

Lemma q_sum_scale (w : list Q) (t : Q) :
  (q_sum (map (λ x, x / t) w) == q_sum w / t)%Q.
Proof.
  induction w as [|x w IH].
  - simpl. unfold Qdiv. by rewrite Qmult_0_l.
  - change (map (λ x, x / t) (x :: w))%Q
      with ((x / t)%Q :: map (λ x, x / t)%Q w).
    rewrite !q_sum_cons, IH. unfold Qdiv. ring.
Qed.

Lemma first_exceeding_range (u acc : Q) (k : nat) (ps : list Q) (idx : nat) :
  first_exceeding u acc k ps = Some idx → (k ≤ idx < k + length ps)%nat.
Proof.
  revert acc k. induction ps as [|p t IH]; intros acc k; simpl; [done|].
  destruct (Qlt_le_dec u (Qred (acc + p))).
  - intros [= <-]. lia.
  - intros Hrec. apply IH in Hrec. lia.
Qed.

Lemma first_exceeding_total (u acc : Q) (k : nat) (ps : list Q) :
  (acc <= u)%Q → (u < acc + q_sum ps)%Q →
  is_Some (first_exceeding u acc k ps).
Proof.
  revert acc k. induction ps as [|p t IH]; intros acc k; simpl.
  - intros Hle Hlt. exfalso. unfold q_sum in Hlt. simpl in Hlt. lra.
  - intros Hle Hlt.
    destruct (Qlt_le_dec u (Qred (acc + p))) as [|Hge]; [by eexists|].
    apply IH; [done|]. rewrite Qred_correct.
    assert (q_sum (p :: t) == p + q_sum t)%Q as Hc by apply q_sum_cons.
    unfold q_sum in *. simpl in *. lra.
Qed.

Lemma forallb_zero_false (w : list Q) :
  Exists (λ x, 0 < x)%Q w → forallb (λ x, Qeq_bool x 0) w = false.
Proof.
  induction 1 as [x t Hx|x t Hex IH]; simpl.
  - destruct (Qeq_bool x 0) eqn:E; [|done].
    apply Qeq_bool_eq in E. lra.
  - rewrite IH. apply andb_false_r.
Qed.

(** The sampled index is within the weight vector, and exactly one uniform
    variate is consumed. *)
Lemma discrete_sample_range (w : list Q) (g g' : G) (idx : nat) :
  discrete_sample w g = Some (idx, g') →
  (idx < length w)%nat ∧ g' = (rng_uniform g).2.
Proof.
  unfold discrete_sample. destruct (forallb _ w); [done|].
  destruct (rng_uniform g) as [u g1] eqn:Hu. simpl.
  destruct (first_exceeding _ _ _ _) as [j|] eqn:Hf; [|done].
  simpl. intros [= <- <-]. apply first_exceeding_range in Hf.
  rewrite length_map in Hf. split; [lia|done].
Qed.

(** Non-negative weights that are not all zero always yield a draw. *)
Lemma discrete_sample_total `{!RandomSourceLaws G} (w : list Q) (g : G) :
  Forall (λ x, 0 <= x)%Q w → Exists (λ x, 0 < x)%Q w →
  ∃ idx, discrete_sample w g = Some (idx, (rng_uniform g).2)
         ∧ (idx < length w)%nat.
Proof.
  intros Hnn Hex. unfold discrete_sample.
  rewrite forallb_zero_false by done.
  pose proof (rng_uniform_range g) as [Hu0 Hu1].
  destruct (rng_uniform g) as [u g1]. simpl in *.
  pose proof (q_sum_pos w Hnn Hex) as Hpos.
  destruct (first_exceeding_total u 0 0 (map (λ x, x / q_sum w)%Q w))
    as [idx Hidx]; [done|..].
  { rewrite q_sum_scale. rewrite Qplus_0_l.
    assert (q_sum w / q_sum w == 1)%Q as -> by (field; lra). done. }
  rewrite Hidx. simpl. exists idx. split; [done|].
  apply first_exceeding_range in Hidx. rewrite length_map in Hidx. lia.
Qed.

Lemma r_max_is_Some (w : list R) : w ≠ [] → is_Some (r_max w).
Proof. destruct w; [done|]. intros _. by eexists. Qed.

Lemma discrete_sample_log_range (w : list R) (g g' : G) (idx : nat) :
  discrete_sample_log w g = Some (idx, g') →
  (idx < length w)%nat ∧ g' = (rng_uniform g).2.
Proof.
  unfold discrete_sample_log. destruct (r_max w) as [m|]; [|done]. simpl.
  intros Hd. apply discrete_sample_range in Hd. by rewrite length_map in Hd.
Qed.

(** With a positive exponential, every non-empty vector of log-weights
    yields a draw. *)
Lemma discrete_sample_log_total `{!NumericsLaws R} `{!RandomSourceLaws G}
    (w : list R) (g : G) :
  w ≠ [] →
  ∃ idx, discrete_sample_log w g = Some (idx, (rng_uniform g).2)
         ∧ (idx < length w)%nat.
Proof.
  intros Hne. unfold discrete_sample_log.
  destruct (r_max_is_Some w Hne) as [m ->]. simpl.
  destruct (discrete_sample_total (map (λ x, r_exp (r_sub x m)) w) g)
    as (idx & Hidx & Hlt).
  - apply Forall_forall. intros q Hq. apply list_elem_of_fmap in Hq as (x & -> & _).
    apply Qlt_le_weak, r_exp_pos.
  - destruct w as [|x w]; [done|]. apply Exists_cons_hd, r_exp_pos.
  - exists idx. rewrite length_map in Hlt. done.
Qed.

End Sampler.

(** ** The executable instances satisfy the interface laws *)

Lemma lcg_uniform_range (s : Z) :
  (0 <= (Lcg.uniform s).1 ∧ (Lcg.uniform s).1 < 1)%Q.
Proof.
  unfold Lcg.uniform, Lcg.next. simpl.
  pose proof (Z.mod_pos_bound (1103515245 * s + 12345) (Zpos Lcg.modulus)) as Hb.
  unfold Qle, Qlt. simpl. lia.
Qed.

Lemma lcg_laws : RandomSourceLaws Z.
Proof.
  split.
  - intros g. apply lcg_uniform_range.
  - intros shape scale g Hsh Hsc.
    pose proof (lcg_uniform_range g) as [Hu _].
    cbn [rng_gamma Lcg.source]. unfold Lcg.gamma, Lcg.uniform in *.
    cbn [fst] in *. rewrite Qred_correct.
    apply Qmult_lt_0_compat; [by apply Qmult_lt_0_compat|]. lra.
Qed.

#[global] Existing Instance lcg_laws.

Lemma approx_exp_pos_pos (y : Q) : (0 <= y)%Q → (0 < Approx.exp_pos y)%Q.
Proof.
  intros Hy. unfold Approx.exp_pos.
  assert (0 <= y * y / 2)%Q.
  { apply Qle_shift_div_l; [lra|]. rewrite Qmult_0_l.
    by apply Qmult_le_0_compat. }
  lra.
Qed.

Lemma approx_exp_pos (x : Q) : (0 < Approx.exp x)%Q.
Proof.
  unfold Approx.exp.
  set (e := if Qlt_le_dec x 0 then _ else _).
  assert (0 < e)%Q as He.
  { subst e. destruct (Qlt_le_dec x 0) as [Hneg|Hpos].
    - apply Qinv_lt_0_compat, approx_exp_pos_pos. lra.
    - by apply approx_exp_pos_pos. }
  clearbody e.
  assert (0 <= Qfloor (e * inject_Z (Zpos Approx.ulp)))%Z as Hfl.
  { change 0%Z with (Qfloor 0). apply Qfloor_resp_le.
    apply Qmult_le_0_compat; [lra|]. by unfold Qle. }
  unfold Qlt. cbn [Qnum Qden]. lia.
Qed.

Lemma approx_laws : NumericsLaws Q.
Proof. split. apply approx_exp_pos. Qed.

#[global] Existing Instance approx_laws.

(** ** Contiguous label sets *)

Section Contiguous.
Implicit Types (l : list Z) (k : nat).

Lemma seqZ_sorted (m : Z) k : StronglySorted Z.lt (seqZ m (Z.of_nat k)).
Proof.
  revert m. induction k as [|k IH]; intros m.
  - rewrite seqZ_nil by lia. constructor.
  - rewrite seqZ_cons by lia.
    replace (Z.pred (Z.of_nat (S k))) with (Z.of_nat k) by lia.
    constructor; [apply IH|].
    apply Forall_forall. intros x Hx. apply elem_of_seqZ in Hx. lia.
Qed.

(** The distinct labels of a contiguous array are [0, 1, ..., k-1] in this
    order: position [j] of [unique] holds the label [j]. *)
Lemma contiguous_unique k l :
  contiguous k l → unique l = seqZ 0 (Z.of_nat k).
Proof.
  intros Hc.
  apply (StronglySorted_unique_strong Z.lt);
    [intros; lia|apply unique_sorted|apply seqZ_sorted|].
  apply NoDup_Permutation; [apply unique_NoDup|apply NoDup_seqZ|].
  intros x. rewrite elem_of_unique, elem_of_seqZ, (Hc x). lia.
Qed.

Lemma contiguous_length_unique k l :
  contiguous k l → length (unique l) = k.
Proof.
  intros Hc. rewrite (contiguous_unique k l Hc), length_seqZ. lia.
Qed.

Lemma contiguous_snoc k l (idx : nat) :
  (1 ≤ k)%nat → (idx ≤ k)%nat → contiguous k l →
  ∃ k', (1 ≤ k')%nat ∧ contiguous k' (l ++ [Z.of_nat idx]).
Proof.
  intros Hk Hidx Hc. destruct (decide (idx = k)) as [->|Hne].
  - exists (S k). split; [lia|]. intros z.
    rewrite elem_of_app, list_elem_of_singleton, (Hc z). lia.
  - exists k. split; [done|]. intros z.
    rewrite elem_of_app, list_elem_of_singleton, (Hc z). lia.
Qed.

Lemma contiguous_nonneg k l : contiguous k l → Forall (λ z, 0 ≤ z)%Z l.
Proof.
  intros Hc. apply Forall_forall. intros z Hz. apply Hc in Hz. lia.
Qed.

End Contiguous.

(** ** sample_latent *)

Section SampleLatent.
Context {G : Type} `{!RandomSource G}.

(** Every existing cluster gets the weight 1, whatever its occupancy:
    line 71 counts the occurrences of the label in [cluster_ids], where each
    label occurs once, not in [c_before]. *)
Lemma latent_weights_ones (c_before : list Z) (a : Q) :
  latent_weights c_before a
  = replicate (length (unique c_before)) 1%Q ++ [a].
Proof.
  unfold latent_weights. f_equal.
  assert (∀ ids : list Z, ids ⊆ unique c_before →
    map (λ cluster_id, inject_Z (count_eq cluster_id (unique c_before))) ids
    = replicate (length ids) 1%Q) as Hgen.
  { induction ids as [|y t IH]; intros Hsub; [done|]. simpl.
    rewrite count_eq_NoDup; [|apply unique_NoDup|apply Hsub; left].
    f_equal. apply IH. intros w Hw. apply Hsub. by right. }
  by apply Hgen.
Qed.

Lemma latent_weights_nonneg (c_before : list Z) (a : Q) :
  (0 < a)%Q →
  Forall (λ x, 0 <= x)%Q (latent_weights c_before a)
  ∧ Exists (λ x, 0 < x)%Q (latent_weights c_before a).
Proof.
  intros Ha. rewrite latent_weights_ones. split.
  - apply Forall_app. split.
    + apply Forall_forall. intros x Hx. apply elem_of_replicate in Hx as [-> _].
      by unfold Qle.
    + repeat constructor. lra.
  - apply Exists_app. right. by constructor.
Qed.

Lemma latent_loop_invariant `{!RandomSourceLaws G}
    (m i : nat) (a : Q) (carr : list Z) (g : G) :
  (0 < a)%Q → (1 ≤ i)%nat → (i + m = length carr)%nat →
  carr !! 0%nat = Some 0%Z →
  prefixes_contiguous i carr →
  ∃ carr' g', latent_loop (seq i m) a carr g = Some (carr', g')
    ∧ length carr' = length carr
    ∧ carr' !! 0%nat = Some 0%Z
    ∧ prefixes_contiguous (i + m) carr'.
Proof.
  intros Ha. revert i carr g.
  induction m as [|m IH]; intros i carr g Hi Hlen H0 Hpre.
  - simpl. exists carr, g. rewrite Nat.add_0_r. done.
  - simpl.
    destruct (latent_weights_nonneg (take i carr) a Ha) as [Hnn Hex].
    destruct (discrete_sample_total _ g Hnn Hex) as (idx & -> & Hidx).
    simpl.
    destruct (Hpre i) as (k & Hk & Hc); [lia|].
    rewrite latent_weights_ones, length_app, length_replicate in Hidx.
    rewrite (contiguous_length_unique k _ Hc) in Hidx. simpl in Hidx.
    destruct (IH (S i) (<[i := Z.of_nat idx]> carr) (rng_uniform g).2)
      as (carr' & g' & Hloop & Hlen' & H0' & Hpre').
    + lia.
    + rewrite length_insert. lia.
    + rewrite list_lookup_insert_ne by lia. done.
    + intros j Hj. destruct (decide (j = S i)) as [->|Hne].
      * rewrite (take_S_r _ _ (Z.of_nat idx))
          by (apply list_lookup_insert_eq; lia).
        rewrite take_insert_ge by lia.
        apply (contiguous_snoc k); [done|lia|done].
      * rewrite take_insert_ge by lia. apply Hpre. lia.
    + exists carr', g'. rewrite Hloop, Hlen', length_insert.
      replace (i + S m)%nat with (S i + m)%nat by lia. done.
Qed.

End SampleLatent.

Section SampleLatentResult.
Context {G : Type} `{!RandomSource G} `{!RandomSourceLaws G}.

(** The forward sampler always returns: a state whose array has [n] entries,
    starts with label 0, and all of whose prefixes are contiguous. *)
Lemma sample_latent_result (params : Params) (data_params : DataParams)
    (σ : store) (g : G) :
  (0 < alpha_shape params)%Q → (0 < alpha_scale params)%Q →
  (1 ≤ dp_n data_params)%nat →
  ∃ s σ' g' carr,
    sample_latent params data_params σ g = Some (s, σ', g')
    ∧ σ' !! c s = Some carr
    ∧ (∀ l, l ∈ dom σ → σ' !! l = σ !! l)
    ∧ alpha s = (rng_gamma (alpha_shape params) (alpha_scale params) g).1
    ∧ length carr = dp_n data_params
    ∧ carr !! 0%nat = Some 0%Z
    ∧ prefixes_contiguous (dp_n data_params) carr.
Proof.
  intros Hsh Hsc Hn. unfold sample_latent.
  pose proof (rng_gamma_pos _ _ g Hsh Hsc) as Ha.
  destruct (rng_gamma _ _ g) as [a g1]. cbn [fst] in *.
  destruct (latent_loop_invariant (dp_n data_params - 1) 1 a
              (replicate (dp_n data_params) 0%Z) g1)
    as (carr & g2 & Hloop & Hlen & H0 & Hpre).
  - done.
  - done.
  - rewrite length_replicate. lia.
  - apply lookup_replicate_2. lia.
  - intros j Hj. assert (j = 1%nat) as -> by lia. exists 1%nat.
    split; [done|]. rewrite take_replicate.
    replace (1 `min` dp_n data_params)%nat with 1%nat by lia.
    intros z. simpl. rewrite list_elem_of_singleton. lia.
  - rewrite Hloop. simpl. unfold np_alloc.
    eexists _, _, _, carr. split; [done|]. simpl.
    rewrite length_replicate in Hlen.
    replace (1 + (dp_n data_params - 1))%nat with (dp_n data_params) in Hpre
      by lia.
    split_and!; try done.
    + apply lookup_insert_eq.
    + intros l Hl. apply lookup_insert_ne. intros <-.
      by apply (is_fresh (dom σ)).
Qed.

End SampleLatentResult.

(** ** Claims about the forward sampler *)

(** C2. The claim: in [sample_latent], observation 0 goes to one initial
    cluster, and for every later index the weight of each existing cluster is
    its occupancy count among the earlier observations, the new-cluster
    weight is [alpha], and the label is drawn by the categorical sampler in
    plain mode. The code gives every existing cluster the weight 1 instead:
    for every prefix the weight vector is [1, ..., 1, alpha]. With
    [alpha_shape = alpha_scale = 1], [n = 3] and the generator seeded with 7
    the labels come out as [0, 0, 0]; at index 2 the prefix is [0, 0], the
    code's weights are [1, alpha] and the occupancy weights are
    [2, alpha]. *)
Theorem sample_latent_weights_ignore_occupancy :
  (∀ (c_before : list Z) (a : Q),
     latent_weights c_before a
     = replicate (length (unique c_before)) 1%Q ++ [a])
  ∧ (∃ s σ' g',
       sample_latent ex_params {| dp_n := 3; dp_dim := 1 |} ∅ (rng_seed 7%Z)
       = Some (s, σ', g')
       ∧ σ' !! c s = Some [0; 0; 0]%Z)
  ∧ (∀ a : Q, latent_weights [0; 0]%Z a = [1%Q; a]
              ∧ crp_weights [0; 0]%Z a = [2%Q; a])
  ∧ ¬ (1 == 2)%Q.
Proof.
  split_and!.
  - apply latent_weights_ones.
  - eexists _, _, _. split; [vm_compute; reflexivity|]. reflexivity.
  - intros a. split; reflexivity.
  - intros H. discriminate H.
Qed.

(** C10. For every [n >= 1] the forward sampler returns a state whose label
    vector has [c[0] = 0] and whose distinct labels are exactly
    [0, 1, ..., k-1] for some [k]. The same holds of every prefix [c[:j]], so
    at every step position [idx] of [cluster_ids] holds the label [idx]: the
    sampler's index, stored as the label, is the id of the chosen cluster. *)
Theorem sample_latent_labels_contiguous {G : Type} `{!RandomSource G}
    `{!RandomSourceLaws G} (params : Params) (data_params : DataParams)
    (σ : store) (g : G) :
  (0 < alpha_shape params)%Q → (0 < alpha_scale params)%Q →
  (1 ≤ dp_n data_params)%nat →
  ∃ s σ' g' carr k,
    sample_latent params data_params σ g = Some (s, σ', g')
    ∧ σ' !! c s = Some carr
    ∧ carr !! 0%nat = Some 0%Z
    ∧ contiguous k carr
    ∧ unique carr = seqZ 0 (Z.of_nat k)
    ∧ ∀ j idx, (1 ≤ j ≤ dp_n data_params)%nat →
        (idx < length (unique (take j carr)))%nat →
        unique (take j carr) !! idx = Some (Z.of_nat idx).
Proof.
  intros Hsh Hsc Hn.
  destruct (sample_latent_result params data_params σ g Hsh Hsc Hn)
    as (s & σ' & g' & carr & Hrun & Hc & _ & _ & Hlen & H0 & Hpre).
  destruct (Hpre (dp_n data_params)) as (k & Hk & Hcont); [lia|].
  rewrite take_ge in Hcont by lia.
  exists s, σ', g', carr, k. split_and!; try done.
  - by apply contiguous_unique.
  - intros j idx Hj Hidx. destruct (Hpre j Hj) as (kj & _ & Hcj).
    rewrite (contiguous_unique kj _ Hcj) in *.
    rewrite length_seqZ in Hidx. rewrite lookup_seqZ_lt by lia. done.
Qed.

Lemma sample_latent_labels_contiguous_witness :
  ((0 < alpha_shape ex_params)%Q ∧ (0 < alpha_scale ex_params)%Q
   ∧ (1 ≤ dp_n {| dp_n := 3; dp_dim := 1 |})%nat)
  ∧ ∃ s σ' g' carr k,
      sample_latent ex_params {| dp_n := 3; dp_dim := 1 |} ∅ (7%Z : Z)
      = Some (s, σ', g')
      ∧ σ' !! c s = Some carr
      ∧ carr !! 0%nat = Some 0%Z
      ∧ contiguous k carr
      ∧ unique carr = seqZ 0 (Z.of_nat k)
      ∧ ∀ j idx, (1 ≤ j ≤ dp_n {| dp_n := 3; dp_dim := 1 |})%nat →
          (idx < length (unique (take j carr)))%nat →
          unique (take j carr) !! idx = Some (Z.of_nat idx).
Proof.
  split.
  - split_and!; [reflexivity|reflexivity|simpl; lia].
  - apply (sample_latent_labels_contiguous (G := Z) ex_params
             {| dp_n := 3; dp_dim := 1 |} ∅ 7%Z);
      [reflexivity|reflexivity|simpl; lia].
Defined.

(** ** sample_alpha *)

Section SampleAlpha.
Context {R G : Type} `{!Numerics R} `{!RandomSource G}.

Lemma length_grid : length grid = 1000%nat.
Proof. unfold grid. by rewrite length_map, length_seq. Qed.

Lemma lookup_grid (k : nat) : (k < 1000)%nat → grid !! k = Some (grid_point k).
Proof.
  intros Hk. unfold grid. change map with (@fmap list _).
  rewrite list_lookup_fmap, lookup_seq_lt by done. done.
Qed.

Lemma grid_step (k : nat) :
  (grid_point (S k) - grid_point k == (10 - (1 # 10)) / 999)%Q.
Proof.
  unfold grid_point. rewrite Nat2Z.inj_succ. unfold Z.succ.
  rewrite inject_Z_plus. ring.
Qed.

Lemma inject_Z_of_nat_nonneg (k : nat) : (0 <= inject_Z (Z.of_nat k))%Q.
Proof. unfold Qle. simpl. lia. Qed.

Lemma grid_point_pos (k : nat) : (0 < grid_point k)%Q.
Proof.
  unfold grid_point.
  assert (0 <= inject_Z (Z.of_nat k) * ((10 - (1 # 10)) / 999))%Q.
  { apply Qmult_le_0_compat; [apply inject_Z_of_nat_nonneg|]. by unfold Qle. }
  set (t := (inject_Z (Z.of_nat k) * ((10 - (1 # 10)) / 999))%Q) in *.
  clearbody t. lra.
Qed.

Lemma grid_point_upper (k : nat) : (k ≤ 999)%nat → (grid_point k <= 10)%Q.
Proof.
  intros Hk. unfold grid_point.
  assert (inject_Z (Z.of_nat k) <= 999)%Q as Hle by (unfold Qle; simpl; lia).
  assert ((10 - (1 # 10)) / 999 == 11 # 1110)%Q as -> by reflexivity.
  set (t := inject_Z (Z.of_nat k)) in *. clearbody t. lra.
Qed.

(** The update is a log-mode draw over the grid, and its result a grid
    point. *)
Lemma sample_alpha_unfold (state : State) (params : Params) (n : nat)
    (σ : store) (g : G) (carr : list Z) :
  σ !! c state = Some carr →
  sample_alpha state params n σ g
  = '(idx, g') ← discrete_sample_log
                   (map (calc_alpha_llh params (length (unique carr)) n) grid) g;
    a ← grid !! idx; Some (a, g').
Proof.
  intros Hc. unfold sample_alpha. rewrite Hc, bind_Some_eq. reflexivity.
Qed.

Lemma sample_alpha_pos (state : State) (params : Params) (n : nat)
    (σ : store) (g g' : G) (a : Q) :
  sample_alpha state params n σ g = Some (a, g') → (0 < a)%Q.
Proof.
  destruct (σ !! c state) as [carr|] eqn:Hc.
  - rewrite (sample_alpha_unfold _ _ _ _ _ carr Hc).
    destruct (discrete_sample_log _ g) as [[idx g1]|] eqn:Hd;
      [rewrite bind_Some_eq|rewrite bind_None_eq; discriminate].
    apply discrete_sample_log_range in Hd as [Hidx _].
    rewrite length_map, length_grid in Hidx.
    rewrite lookup_grid, bind_Some_eq by done.
    intros [= <- <-]. apply grid_point_pos.
  - unfold sample_alpha. rewrite Hc, bind_None_eq. discriminate.
Qed.

Lemma sample_alpha_total `{!NumericsLaws R} `{!RandomSourceLaws G}
    (state : State) (params : Params) (n : nat) (σ : store) (g : G)
    (carr : list Z) :
  σ !! c state = Some carr →
  ∃ idx, (idx < 1000)%nat
    ∧ discrete_sample_log
        (map (calc_alpha_llh params (length (unique carr)) n) grid) g
      = Some (idx, (rng_uniform g).2)
    ∧ sample_alpha state params n σ g
      = Some (grid_point idx, (rng_uniform g).2).
Proof.
  intros Hc. rewrite (sample_alpha_unfold _ _ _ _ _ carr Hc).
  destruct (discrete_sample_log_total
              (map (calc_alpha_llh params (length (unique carr)) n) grid) g)
    as (idx & Hd & Hidx).
  { intros Hnil. apply (f_equal length) in Hnil.
    rewrite length_map, length_grid in Hnil. done. }
  rewrite length_map, length_grid in Hidx.
  exists idx. rewrite Hd, bind_Some_eq, lookup_grid, bind_Some_eq by done.
  split_and!; [done|reflexivity|reflexivity].
Qed.

End SampleAlpha.

(** C3. [sample_alpha] evaluates on the grid of 1000 equally spaced points
    from 0.1 to 10 the log-density
    [gamma.logpdf(alpha) + gammaln(alpha) + k log(alpha) - gammaln(alpha + n)],
    [k] the number of distinct labels and [n] the number of observations,
    draws a grid index with the categorical sampler in log mode and returns
    that grid point. Two states with the same number of distinct labels give
    the same result from the same random source. *)
Theorem sample_alpha_grid_posterior {R G : Type} `{!Numerics R}
    `{!RandomSource G} `{!NumericsLaws R} `{!RandomSourceLaws G}
    (st1 st2 : State) (σ1 σ2 : store) (c1 c2 : list Z) (params : Params)
    (n : nat) (g : G) :
  σ1 !! c st1 = Some c1 → σ2 !! c st2 = Some c2 →
  length (unique c1) = length (unique c2) →
  (length grid = 1000%nat
   ∧ (grid_point 0 == 1 # 10)%Q ∧ (grid_point 999 == 10)%Q
   ∧ (∀ k, grid !! k = Some (grid_point k) ↔ (k < 1000)%nat)
   ∧ (∀ k, grid_point (S k) - grid_point k == (10 - (1 # 10)) / 999)%Q)
  ∧ (let k := length (unique c1) in
     let llh := map (λ a,
       r_add (r_gamma_logpdf a (alpha_shape params) (alpha_scale params))
             (r_sub (r_add (r_gammaln a)
                           (r_mul (r_of_Z (Z.of_nat k)) (r_log a)))
                    (r_gammaln (a + inject_Z (Z.of_nat n))))) grid in
     ∃ idx, (idx < 1000)%nat
       ∧ discrete_sample_log llh g = Some (idx, (rng_uniform g).2)
       ∧ sample_alpha st1 params n σ1 g
         = Some (grid_point idx, (rng_uniform g).2))
  ∧ sample_alpha st1 params n σ1 g = sample_alpha st2 params n σ2 g.
Proof.
  intros H1 H2 Hk. split_and!.
  - apply length_grid.
  - reflexivity.
  - reflexivity.
  - intros k. split.
    + intros Hl. apply lookup_lt_Some in Hl. by rewrite length_grid in Hl.
    + apply lookup_grid.
  - apply grid_step.
  - apply (sample_alpha_total st1 params n σ1 g c1 H1).
  - rewrite (sample_alpha_unfold _ _ _ _ _ c1 H1),
      (sample_alpha_unfold _ _ _ _ _ c2 H2), Hk. reflexivity.
Qed.

Lemma sample_alpha_grid_posterior_witness :
  (ex_store !! c ex_state = Some ex_labels
   ∧ ({[ 1%positive := [5; 9; 5; 9]%Z ]} : store) !! c ex_state
     = Some [5; 9; 5; 9]%Z
   ∧ length (unique ex_labels) = length (unique [5; 9; 5; 9]%Z))
  ∧ sample_alpha (R := Q) ex_state ex_params 3 ex_store (7%Z : Z)
    = sample_alpha (R := Q) ex_state ex_params 3
        {[ 1%positive := [5; 9; 5; 9]%Z ]} (7%Z : Z).
Proof.
  split.
  - split_and!; reflexivity.
  - apply (sample_alpha_grid_posterior (R := Q) (G := Z) ex_state ex_state
             ex_store {[ 1%positive := [5; 9; 5; 9]%Z ]} ex_labels
             [5; 9; 5; 9]%Z ex_params 3 7%Z); reflexivity.
Defined.

(** ** sample_data *)

Section SampleData.
Context {G : Type} `{!RandomSource G}.

Lemma counting_draws_beta (a b : Q) (k : nat) (g : G) (m : nat) :
  (draws (rng_beta (RandomSource := Counting.source) a b) k (g, m)).2.2
  = (m + k)%nat.
Proof.
  revert g m. induction k as [|k IH]; intros g m; simpl; [lia|].
  unfold Counting.beta_draw. simpl.
  destruct (rng_beta a b g) as [x g1].
  specialize (IH g1 (S m)).
  destruct (draws _ k (g1, S m)) as [rest gk]. simpl in *. lia.
Qed.

Lemma counting_draws_uniform (k : nat) (g : G) (m : nat) :
  (draws (rng_uniform (RandomSource := Counting.source)) k (g, m)).2.2 = m.
Proof.
  revert g. induction k as [|k IH]; intros g; simpl; [done|].
  unfold Counting.lift. simpl.
  destruct (rng_uniform g) as [x g1].
  specialize (IH g1).
  destruct (draws _ k (g1, m)) as [rest gk]. simpl in *. done.
Qed.

Lemma counting_data_loop (idxs : list nat) (cinv : list Z) (clusters : list Q)
    (dim : nat) (x x' : matrix) (g g' : G) (m m' : nat) :
  data_loop (RandomSource0 := Counting.source) idxs cinv clusters dim x (g, m)
  = Some (x', (g', m')) → m' = m.
Proof.
  revert x g. induction idxs as [|i rest IH]; intros x g; simpl.
  - by intros [= _ _ <-].
  - destruct (cinv !! i) as [ci|]; [|done]. simpl.
    destruct (clusters !! Z.to_nat ci) as [cluster|]; [|done]. simpl.
    pose proof (counting_draws_uniform dim g m) as Hu.
    destruct (draws _ dim (g, m)) as [us [g1 m1]]. simpl in Hu. subst m1.
    apply IH.
Qed.

(** [sample_data] draws one beta variate per cluster, whatever [dim] is. *)
Lemma sample_data_beta_draws (state : State) (params : Params)
    (data_params : DataParams) (σ : store) (g g' : G) (x : matrix) (k : nat) :
  sample_data (RandomSource0 := Counting.source) state params data_params σ
    (g, O) = Some (x, (g', k)) →
  ∃ labels, σ !! c state = Some labels
            ∧ k = length (unique (unique_inverse labels)).
Proof.
  unfold sample_data. destruct (σ !! c state) as [labels|]; [|done]. simpl.
  pose proof (counting_draws_beta (beta params) (beta params)
                (length (unique (unique_inverse labels))) g O) as Hb.
  destruct (draws _ _ (g, O)) as [clusters [g1 m1]]. simpl in Hb. subst m1.
  intros Hloop. apply counting_data_loop in Hloop. eauto.
Qed.

End SampleData.

(** C5. The claim: [sample_data] draws, for every cluster, one Bernoulli
    probability per feature dimension from Beta(beta, beta), and entry (i, d)
    is true with the probability drawn for the cluster of observation [i] and
    dimension [d]. The code draws one probability per cluster
    ([size=n_clusters]) and compares all [dim] uniform variates of a row with
    it. With labels [0, 0, 1] and [dim = 2] it draws 2 beta variates, where
    one per cluster and dimension are 4. *)
Theorem sample_data_one_probability_per_cluster :
  (∀ (G : Type) (src : RandomSource G) (state : State) (params : Params)
     (data_params : DataParams) (σ : store) (g : G),
     match sample_data (RandomSource0 := Counting.source) state params
             data_params σ (g, O) with
     | Some (_, (_, k)) =>
         ∃ labels, σ !! c state = Some labels
                   ∧ k = length (unique (unique_inverse labels))
     | None => True
     end)
  ∧ sample_data (RandomSource0 := Counting.source) ex_state ex_params
      {| dp_n := 3; dp_dim := 2 |} ex_store (7%Z, O)
    = Some ([[true; false]; [false; true]; [false; false]],
            (2083449087%Z, 2%nat))
  ∧ sample_data_spec (RandomSource0 := Counting.source) ex_state ex_params
      {| dp_n := 3; dp_dim := 2 |} ex_store (7%Z, O)
    = Some ([[false; true]; [false; false]; [true; true]],
            (715197717%Z, 4%nat)).
Proof.
  split_and!.
  - intros G src state params data_params σ g.
    destruct (sample_data _ _ _ _ _) as [[x [g' k]]|] eqn:Hrun; [|done].
    by apply sample_data_beta_draws in Hrun.
  - vm_compute. reflexivity.
  - vm_compute. reflexivity.
Qed.

(** ** sample_c *)

Section ListUpdates.
Implicit Types (l : list Z) (i : nat) (v : Z).

Lemma delete_insert_same l i v : delete i (<[i := v]> l) = delete i l.
Proof.
  rewrite !delete_take_drop, take_insert_ge, drop_insert_lt by lia. done.
Qed.

Lemma insert_Permutation l i v :
  (i < length l)%nat → <[i := v]> l ≡ₚ v :: delete i l.
Proof.
  intros Hi. rewrite <-(delete_insert_same l i v).
  apply delete_Permutation, list_lookup_insert_eq. done.
Qed.

(** Overwriting one entry changes the number of distinct values by at most
    one, in either direction. *)
Lemma distinct_insert l i v :
  (i < length l)%nat →
  (length (unique (<[i := v]> l)) ≤ S (length (unique l)))%nat
  ∧ (length (unique l) ≤ S (length (unique (<[i := v]> l))))%nat.
Proof.
  intros Hi. destruct (lookup_lt_is_Some_2 l i Hi) as [x Hx].
  rewrite (unique_Permutation _ _ (insert_Permutation l i v Hi)).
  rewrite (unique_Permutation _ _ (delete_Permutation l i x Hx)).
  simpl.
  destruct (length_insert_unique v (unique (delete i l))) as [-> | ->];
    destruct (length_insert_unique x (unique (delete i l))) as [-> | ->]; lia.
Qed.

Lemma elem_of_delete_le l i x : x ∈ delete i l → x ∈ l.
Proof. intros Hx. eapply elem_of_sublist; [done|apply sublist_delete]. Qed.

End ListUpdates.

Section SampleC.
Context {R G : Type} `{!Numerics R} `{!RandomSource G}.

Lemma np_delete_Some (carr : list Z) (i : nat) (c_diff : list Z) :
  np_delete carr i = Some c_diff ↔ (i < length carr)%nat ∧ c_diff = delete i carr.
Proof. unfold np_delete. case_decide; naive_solver. Qed.

Lemma length_members_mask (carr : list Z) (cluster_id : Z) (i : nat) :
  length (members_mask carr cluster_id i) = length carr.
Proof. unfold members_mask. by rewrite length_insert, length_map. Qed.

Lemma cluster_loop_length (cluster_ids : list Z) (i : nat)
    (carr c_diff : list Z) (data : matrix) (dim : nat) (bvec bfinal : list Q)
    (ts : list ClusterTerms) :
  cluster_loop cluster_ids i carr c_diff data dim bvec = Some (ts, bfinal) →
  length ts = length cluster_ids.
Proof.
  revert bvec ts. induction cluster_ids as [|cluster_id rest IH];
    intros bvec ts; simpl.
  - by intros [= <- _].
  - destruct (mask_rows _ data) as [rows|]; simpl; [|done].
    destruct (cluster_loop rest _ _ _ _ _ _) as [[ts' b']|] eqn:Hrec; simpl;
      [|done].
    intros [= <- <-]. simpl. f_equal. by eapply IH.
Qed.

Lemma cluster_loop_total (cluster_ids : list Z) (i : nat)
    (carr c_diff : list Z) (data : matrix) (dim : nat) (bvec : list Q) :
  length data = length carr →
  is_Some (cluster_loop cluster_ids i carr c_diff data dim bvec).
Proof.
  intros Hlen. revert bvec.
  induction cluster_ids as [|cluster_id rest IH]; intros bvec; simpl.
  - by eexists.
  - unfold mask_rows. rewrite length_members_mask.
    rewrite decide_True by done. simpl.
    destruct (IH (v_add_counts bvec
      (col_counts false (mask_select (members_mask carr cluster_id i) data) dim)))
      as [[ts b] ->].
    simpl. by eexists.
Qed.

(** The weight vector has one entry per distinct label among the other
    observations, and one for the new cluster. *)
Lemma sample_c_weights_length (i : nat) (carr : list Z) (data : matrix)
    (dp_alpha beta0 : Q) (p : list R) :
  sample_c_weights i carr data dp_alpha beta0 = Some p →
  length p = S (length (unique (delete i carr))).
Proof.
  unfold sample_c_weights.
  destruct (np_delete carr i) as [c_diff|] eqn:Hd; simpl; [|done].
  apply np_delete_Some in Hd as [_ ->].
  destruct (data !! i) as [row|]; simpl; [|done].
  destruct (cluster_loop _ _ _ _ _ _ _) as [[ts b]|] eqn:Hloop; simpl; [|done]. intros [= <-]. apply cluster_loop_length in Hloop.
  rewrite length_app, length_map, Hloop. simpl. lia.
Qed.

Lemma sample_c_weights_total (i : nat) (carr : list Z) (data : matrix)
    (dp_alpha beta0 : Q) :
  (i < length carr)%nat → length data = length carr →
  is_Some (sample_c_weights i carr data dp_alpha beta0).
Proof.
  intros Hi Hlen. unfold sample_c_weights, np_delete.
  rewrite decide_True, bind_Some_eq by done.
  destruct (lookup_lt_is_Some_2 data i) as [row ->]; [lia|].
  rewrite bind_Some_eq. cbv zeta.
  destruct (cluster_loop_total (unique (delete i carr)) i carr (delete i carr)
              data (length (map b2q row))
              (replicate (length (map b2q row)) beta0) Hlen) as [[ts b] ->].
  rewrite bind_Some_eq. by eexists.
Qed.

(** What a successful call did: it computed the weights, drew an index in
    log mode, and mapped the index to a label. *)
Lemma sample_c_Some (i : nat) (carr : list Z) (params : Params)
    (data : matrix) (dp_alpha beta0 : Q) (g g' : G) (v : Z) :
  sample_c i carr params data dp_alpha beta0 g = Some (v, g') →
  (i < length carr)%nat
  ∧ ∃ p idx,
      sample_c_weights i carr data dp_alpha beta0 = Some p
      ∧ discrete_sample_log p g = Some (idx, g')
      ∧ ((idx < length (unique (delete i carr)))%nat
           ∧ unique (delete i carr) !! idx = Some v
         ∨ idx = length (unique (delete i carr))
           ∧ ∃ m, last (unique (delete i carr)) = Some m
                  ∧ v = wrap64 (m + 1)).
Proof.
  unfold sample_c.
  destruct (np_delete carr i) as [c_diff|] eqn:Hd; simpl; [|done].
  apply np_delete_Some in Hd as [Hi ->].
  destruct (sample_c_weights _ _ _ _ _) as [p|] eqn:Hp; simpl; [|done].
  destruct (discrete_sample_log p g) as [[idx g1]|] eqn:Hs; simpl; [|done].
  pose proof (sample_c_weights_length _ _ _ _ _ _ Hp) as Hlen.
  pose proof (discrete_sample_log_range _ _ _ _ Hs) as [Hidx _].
  intros Hret. split; [done|]. exists p, idx.
  case_decide as Hlast.
  - destruct (last _) as [m|] eqn:Hm; [|done]. simpl in Hret.
    injection Hret as <- <-. split_and!; [done..|]. right.
    split; [lia|]. by exists m.
  - destruct (unique (delete i carr) !! idx) as [w|] eqn:Hw; [|done].
    simpl in Hret. injection Hret as <- <-. split_and!; [done..|]. left.
    split; [lia|done].
Qed.

(** With at least one other observation, and a matrix with a row per
    label, the update returns. *)
Lemma sample_c_total `{!NumericsLaws R} `{!RandomSourceLaws G}
    (i : nat) (carr : list Z) (params : Params) (data : matrix)
    (dp_alpha beta0 : Q) (g : G) :
  (i < length carr)%nat → (2 ≤ length carr)%nat →
  length data = length carr →
  ∃ v, sample_c i carr params data dp_alpha beta0 g
       = Some (v, (rng_uniform g).2).
Proof.
  intros Hi H2 Hlen. unfold sample_c, np_delete.
  rewrite decide_True, bind_Some_eq by done. cbv zeta.
  destruct (sample_c_weights_total i carr data dp_alpha beta0 Hi Hlen)
    as [p Hp].
  rewrite Hp, bind_Some_eq.
  pose proof (sample_c_weights_length _ _ _ _ _ _ Hp) as Hplen.
  destruct (discrete_sample_log_total p g) as (idx & -> & Hidx).
  { intros ->. done. }
  rewrite bind_Some_eq. case_decide as Hlast.
  - destruct (last (unique (delete i carr))) as [m|] eqn:Hm.
    + simpl. by eexists.
    + apply last_None, unique_nil_inv in Hm.
      apply (f_equal length) in Hm. rewrite length_delete in Hm by
        (by apply lookup_lt_is_Some_2). simpl in Hm. lia.
  - destruct (lookup_lt_is_Some_2 (unique (delete i carr)) idx) as [w ->];
      [lia|]. simpl. by eexists.
Qed.

(** The label returned is that of another observation, or the [int64] sum
    of the largest of their labels and one. *)
Lemma sample_c_label (i : nat) (carr : list Z) (params : Params)
    (data : matrix) (dp_alpha beta0 : Q) (g g' : G) (v : Z) :
  sample_c i carr params data dp_alpha beta0 g = Some (v, g') →
  v ∈ delete i carr
  ∨ ∃ m, m ∈ delete i carr ∧ (∀ y, y ∈ delete i carr → (y ≤ m)%Z)
         ∧ v = wrap64 (m + 1).
Proof.
  intros Hrun. apply sample_c_Some in Hrun
    as (_ & p & idx & _ & _ & [[_ Hv]|[_ (m & Hm & ->)]]).
  - left. apply elem_of_unique. by eapply list_elem_of_lookup_2.
  - right. exists m. split_and!; [| |done].
    + apply elem_of_unique. by apply last_Some_elem_of.
    + intros y Hy. apply (sorted_last_max (unique (delete i carr)));
        [apply unique_sorted|done|by apply elem_of_unique].
Qed.

(** Below the [int64] maximum the update raises the largest label by at most
    one and never goes below the smallest. *)
Lemma sample_c_range (i : nat) (carr : list Z) (params : Params)
    (data : matrix) (dp_alpha beta0 : Q) (g g' : G) (v lo hi : Z) :
  Forall (λ z, lo ≤ z ≤ hi)%Z carr →
  (int64_min ≤ lo)%Z → (hi < int64_max)%Z →
  sample_c i carr params data dp_alpha beta0 g = Some (v, g') →
  (lo ≤ v ≤ hi + 1)%Z.
Proof.
  intros Hr Hlo Hhi Hrun. rewrite Forall_forall in Hr.
  apply sample_c_label in Hrun as [Hv|(m & Hm & _ & ->)].
  - apply (elem_of_delete_le _ i), Hr in Hv. lia.
  - apply (elem_of_delete_le _ i), Hr in Hm.
    rewrite wrap64_id by lia. lia.
Qed.

End SampleC.

(** With a single observation there are no other labels: the weight vector
    has the new-cluster entry only, the draw returns its index, and
    [cluster_ids[-1]] on the empty array raises. *)
Lemma sample_c_single_observation {R G : Type} `{!Numerics R}
    `{!RandomSource G} (z : Z) (params : Params) (data : matrix)
    (dp_alpha beta0 : Q) (g : G) :
  sample_c 0 [z] params data dp_alpha beta0 g = None.
Proof.
  destruct (sample_c 0 [z] params data dp_alpha beta0 g) as [[v g']|] eqn:Hrun;
    [|done].
  apply sample_c_Some in Hrun
    as (_ & p & idx & _ & _ & [[Hidx _]|[_ (m & Hm & _)]]).
  - simpl in Hidx. lia.
  - simpl in Hm. done.
Qed.

(** ** Claims about the cluster assignment update *)

(** C6, as the specification states it, fails where the largest label of
    the other observations is the [int64] maximum: with labels
    [0, 2^63 - 1] and [i = 0] the new-cluster branch returns [-2^63], which
    is neither a label of another observation nor the largest of them plus
    one. *)
Lemma sample_c_new_label_wraps :
  sample_c (R := Q) 0 [0%Z; int64_max] ex_params top_data 1 1 (7%Z : Z)
  = Some (int64_min, 1282168116%Z)
  ∧ ¬ (int64_min ∈ delete 0 [0%Z; int64_max]
       ∨ ∃ m, m ∈ delete 0 [0%Z; int64_max] ∧ int64_min = (m + 1)%Z).
Proof.
  split; [vm_compute; reflexivity|].
  intros [Hin|(m & Hm & Heq)].
  - simpl in Hin. apply list_elem_of_singleton in Hin. discriminate Hin.
  - simpl in Hm. apply list_elem_of_singleton in Hm. subst m.
    discriminate Heq.
Qed.

(** C6, amended. For every observation index [i] and label vector [c] in
    which the labels of the other observations are [int64] values below the
    maximum [2^63 - 1], whatever the update returns is either the label of
    an existing cluster, one of the distinct labels of the other observations
    (when the sampled index names an existing cluster), or the largest label
    of the other observations plus one (when the sampled index is the last
    one); in the second case the label lies above all labels of the other
    observations, so it is neither one of them nor a gap between them. With
    at least one other observation the update does return. *)
Theorem sample_c_existing_or_max_plus_one {R G : Type} `{!Numerics R}
    `{!RandomSource G} `{!NumericsLaws R} `{!RandomSourceLaws G}
    (i : nat) (carr : list Z) (params : Params) (data : matrix)
    (dp_alpha beta0 : Q) (g : G) :
  (i < length carr)%nat → length data = length carr →
  Forall (λ y, int64_min ≤ y < int64_max)%Z (delete i carr) →
  (∀ v g',
     sample_c i carr params data dp_alpha beta0 g = Some (v, g') →
     ∃ p idx,
       sample_c_weights i carr data dp_alpha beta0 = Some p
       ∧ discrete_sample_log p g = Some (idx, g')
       ∧ ((idx < length (unique (delete i carr)))%nat
            ∧ unique (delete i carr) !! idx = Some v
            ∧ v ∈ delete i carr
          ∨ idx = length (unique (delete i carr))
            ∧ ∃ m, m ∈ delete i carr
                   ∧ (∀ y, y ∈ delete i carr → (y ≤ m)%Z)
                   ∧ v = (m + 1)%Z
                   ∧ (v ∉ delete i carr)
                   ∧ ∀ y, y ∈ delete i carr → (y < v)%Z))
  ∧ ((2 ≤ length carr)%nat →
     ∃ v, sample_c i carr params data dp_alpha beta0 g
          = Some (v, (rng_uniform g).2)).
Proof.
  intros Hi Hlen Hrange. split.
  - intros v g' Hrun.
    destruct (sample_c_Some _ _ _ _ _ _ _ _ _ Hrun)
      as (_ & p & idx & Hp & Hs & Hcase).
    exists p, idx. split_and!; [done..|].
    destruct Hcase as [[Hidx Hv]|[Hidx (m & Hm & ->)]].
    + left. split_and!; [done..|].
      apply elem_of_unique. by eapply list_elem_of_lookup_2.
    + right. split; [done|]. exists m.
      assert (∀ y, y ∈ delete i carr → (y ≤ m)%Z) as Hmax.
      { intros y Hy. apply (sorted_last_max (unique (delete i carr)));
          [apply unique_sorted|done|by apply elem_of_unique]. }
      assert (m ∈ delete i carr) as Hin
        by (apply elem_of_unique; by apply last_Some_elem_of).
      rewrite Forall_forall in Hrange. specialize (Hrange m Hin).
      rewrite wrap64_id by (unfold int64_min, int64_max in *; lia).
      split_and!; [done|done|done| |].
      * intros Hin'. apply Hmax in Hin'. lia.
      * intros y Hy. apply Hmax in Hy. lia.
  - intros H2. by apply sample_c_total.
Qed.

Lemma sample_c_existing_or_max_plus_one_witness :
  ((0 < length ex_labels)%nat ∧ length ex_data = length ex_labels
   ∧ Forall (λ y, int64_min ≤ y < int64_max)%Z (delete 0 ex_labels))
  ∧ ((2 ≤ length ex_labels)%nat →
     ∃ v, sample_c (R := Q) 0 ex_labels ex_params ex_data 1 1 (7%Z : Z)
          = Some (v, (rng_uniform 7%Z).2)).
Proof.
  assert (Forall (λ y, int64_min ≤ y < int64_max)%Z (delete 0 ex_labels))
    as Hrange by (repeat constructor; unfold int64_min, int64_max; lia).
  split.
  - split_and!; [simpl; lia|reflexivity|exact Hrange].
  - exact (proj2 (sample_c_existing_or_max_plus_one (R := Q) (G := Z) 0
             ex_labels ex_params ex_data 1 1 7%Z
             (le_S _ _ (le_S _ _ (le_n 1))) eq_refl Hrange)).
Defined.

(** C8. Writing the result of one cluster assignment update back into
    [c[i]] changes the number of distinct labels in [c] by at most one, in
    either direction. *)
Theorem sample_c_label_count_changes_by_at_most_one {R G : Type}
    `{!Numerics R} `{!RandomSource G}
    (i : nat) (carr : list Z) (params : Params) (data : matrix)
    (dp_alpha beta0 : Q) (g g' : G) (v : Z) :
  sample_c i carr params data dp_alpha beta0 g = Some (v, g') →
  (length (unique (<[i := v]> carr)) ≤ length (unique carr) + 1)%nat
  ∧ (length (unique carr) ≤ length (unique (<[i := v]> carr)) + 1)%nat.
Proof.
  intros Hrun. apply sample_c_Some in Hrun as [Hi _].
  destruct (distinct_insert carr i v Hi). lia.
Qed.

Lemma sample_c_label_count_changes_by_at_most_one_witness :
  sample_c (R := Q) 0 ex_labels ex_params ex_data 1 1 (7%Z : Z)
  = Some (1%Z, 1282168116%Z)
  ∧ (length (unique (<[0%nat := 1%Z]> ex_labels))
     ≤ length (unique ex_labels) + 1)%nat
  ∧ (length (unique ex_labels)
     ≤ length (unique (<[0%nat := 1%Z]> ex_labels)) + 1)%nat.
Proof.
  assert (sample_c (R := Q) 0 ex_labels ex_params ex_data 1 1 (7%Z : Z)
          = Some (1%Z, 1282168116%Z)) as Hrun by (vm_compute; reflexivity).
  split; [exact Hrun|].
  exact (sample_c_label_count_changes_by_at_most_one (R := Q) (G := Z)
           0 ex_labels ex_params ex_data 1 1 7%Z 1282168116%Z 1%Z Hrun).
Defined.

(** The first cluster of the loop is given the posterior parameters the
    specification describes: [beta] still holds the prior pseudo-count. *)
Lemma cluster_loop_first_matches_spec (cluster_id : Z) (rest : list Z)
    (i : nat) (carr : list Z) (data : matrix) (dim : nat) (beta0 : Q)
    (t : ClusterTerms) (ts : list ClusterTerms) (bfinal : list Q) :
  (i < length carr)%nat →
  cluster_loop (cluster_id :: rest) i carr (delete i carr) data dim
    (replicate dim beta0) = Some (t :: ts, bfinal) →
  spec_cluster_terms i carr data dim beta0 cluster_id = Some t.
Proof.
  intros Hi. unfold spec_cluster_terms, np_delete. simpl.
  rewrite decide_True by done. simpl.
  destruct (mask_rows _ data) as [rows|]; simpl; [|done].
  destruct (cluster_loop rest _ _ _ _ _ _) as [[ts' b']|]; simpl; [|done].
  by intros [= <- _ _].
Qed.

(** C1. The claim: for every existing cluster the log-weight is
    [log(count)] plus the predictive sum at the posterior parameters
    [(beta + #true, beta + #false)] of that cluster, [beta] being the prior
    pseudo-count for every cluster, and the new-cluster log-weight is
    [log(alpha)] plus the predictive sum at [(beta, beta)]. In the code line
    108 rebinds [beta], so from the second cluster on, and for the new
    cluster, the parameters carry the false-counts of all clusters visited
    before. With labels [0, 0, 1], rows [[1], [0], [1]], [i = 0] and
    [beta = 1] the second cluster is given [(3, 2)] where its posterior
    parameters are [(2, 1)], and the new cluster [(2, 2)] where the prior
    is [(1, 1)]. *)
Theorem sample_c_beta_accumulates_across_clusters :
  cluster_loop (unique (delete 0 ex_labels)) 0 ex_labels (delete 0 ex_labels)
    ex_data 1 [1%Q]
  = Some ([ {| ct_count := 1; ct_alpha := [1%Q]; ct_beta := [2%Q] |};
            {| ct_count := 1; ct_alpha := [3%Q]; ct_beta := [2%Q] |} ],
          [2%Q])
  ∧ mapM (spec_cluster_terms 0 ex_labels ex_data 1 1)
         (unique (delete 0 ex_labels))
    = Some [ {| ct_count := 1; ct_alpha := [1%Q]; ct_beta := [2%Q] |};
             {| ct_count := 1; ct_alpha := [2%Q]; ct_beta := [1%Q] |} ]
  ∧ (∀ (R : Type) (N : Numerics R) (a : Q),
       sample_c_weights (R := R) 0 ex_labels ex_data a 1
       = Some [ r_add (r_sum [r_sub (r_betaln (1 + 1) (2 + (1 - 1)))
                                    (r_betaln 1 2)]) (r_log 1);
                r_add (r_sum [r_sub (r_betaln (3 + 1) (2 + (1 - 1)))
                                    (r_betaln 3 2)]) (r_log 1);
                r_add (r_log a)
                      (r_sum [r_sub (r_betaln (2 + 1) (2 - 1 + 1))
                                    (r_betaln 2 2)]) ]
       ∧ spec_sample_c_weights (R := R) 0 ex_labels ex_data a 1
         = Some [ r_add (r_log 1)
                        (r_sum [r_sub (r_betaln (1 + 1) (2 + (1 - 1)))
                                      (r_betaln 1 2)]);
                  r_add (r_log 1)
                        (r_sum [r_sub (r_betaln (2 + 1) (1 + (1 - 1)))
                                      (r_betaln 2 1)]);
                  r_add (r_log a)
                        (r_sum [r_sub (r_betaln (1 + 1) (1 + (1 - 1)))
                                      (r_betaln 1 1)]) ])
  ∧ sample_c_weights (R := Q) 0 ex_labels ex_data 1 1
    ≠ spec_sample_c_weights (R := Q) 0 ex_labels ex_data 1 1
  ∧ ¬ (3 == 2)%Q ∧ ¬ (2 == 1)%Q.
Proof.
  split_and!.
  - reflexivity.
  - reflexivity.
  - intros R N a. split; reflexivity.
  - intros Heq. vm_compute in Heq. discriminate Heq.
  - intros H. discriminate H.
  - intros H. discriminate H.
Qed.

(** ** transition *)

Section Transition.
Context {R G : Type} `{!Numerics R} `{!RandomSource G}.

(** The in-place loop on the array at [cl] is the fold [sweep_spec] over the
    contents of that array. *)
Lemma sweep_as_fold (idxs : list nat) (cl : loc) (params : Params)
    (data : matrix) (a beta0 : Q) (σ : store) (g : G) (carr : list Z) :
  σ !! cl = Some carr →
  sweep idxs cl params data a beta0 σ g
  = '(carr', g') ← sweep_spec idxs carr params data a beta0 g;
    Some (<[cl := carr']> σ, g').
Proof.
  revert σ g carr. induction idxs as [|i rest IH]; intros σ g carr Hc.
  - simpl. by rewrite insert_id.
  - simpl. rewrite Hc. simpl.
    destruct (sample_c i carr params data a beta0 g) as [[v g1]|] eqn:Hrun;
      simpl; [|done].
    apply sample_c_Some in Hrun as [Hi _].
    unfold np_setitem. rewrite Hc. simpl. rewrite decide_True by done. simpl.
    rewrite (IH _ g1 (<[i := v]> carr)) by apply lookup_insert_eq.
    destruct (sweep_spec rest _ _ _ _ _ _) as [[carr' g']|]; simpl; [|done].
    by rewrite insert_insert_eq.
Qed.

Lemma sample_alpha_store_indep (state : State) (params : Params) (n : nat)
    (σ σ' : store) (g : G) :
  σ' !! c state = σ !! c state →
  sample_alpha state params n σ' g = sample_alpha state params n σ g.
Proof. intros Heq. unfold sample_alpha. by rewrite Heq. Qed.

Lemma sample_alpha_is_Some_lookup (state : State) (params : Params) (n : nat)
    (σ : store) (g g' : G) (a : Q) :
  sample_alpha state params n σ g = Some (a, g') → is_Some (σ !! c state).
Proof.
  unfold sample_alpha. destruct (σ !! c state); [by eexists|].
  rewrite bind_None_eq. discriminate.
Qed.

(** One call of the kernel, in terms of [transition_spec]: the new array is
    allocated at a fresh location and holds the swept copy. *)
Lemma transition_as_spec (state : State) (params : Params) (data : matrix)
    (σ : store) (g : G) :
  transition state params data σ g
  = carr ← σ !! c state;
    '(a, carr', g2) ← transition_spec carr state params data σ g;
    Some ({| alpha := a; c := fresh (dom σ) |},
          <[fresh (dom σ) := carr']> σ, g2).
Proof.
  unfold transition, transition_spec.
  destruct (sample_alpha state params (length data) σ g) as [[a g1]|] eqn:Ha.
  - destruct (sample_alpha_is_Some_lookup _ _ _ _ _ _ _ Ha) as [carr Hc].
    rewrite Hc, !bind_Some_eq. unfold np_copy. rewrite Hc, !bind_Some_eq.
    rewrite (sweep_as_fold _ _ _ _ _ _ _ _ carr) by apply lookup_insert_eq.
    destruct (sweep_spec _ carr _ _ _ _ _) as [[carr' g2]|];
      [|by rewrite !bind_None_eq].
    rewrite !bind_Some_eq. by rewrite insert_insert_eq.
  - rewrite bind_None_eq.
    destruct (σ !! c state); [|by rewrite bind_None_eq].
    by rewrite bind_Some_eq, bind_None_eq.
Qed.

Lemma transition_Some (state s' : State) (params : Params) (data : matrix)
    (σ σ' : store) (g g' : G) :
  transition state params data σ g = Some (s', σ', g') →
  ∃ carr carr' g1,
    σ !! c state = Some carr
    ∧ sample_alpha state params (length data) σ g = Some (alpha s', g1)
    ∧ sweep_spec (seq 0 (length data)) carr params data (alpha s')
        (beta params) g1 = Some (carr', g')
    ∧ c s' = fresh (dom σ)
    ∧ σ' = <[c s' := carr']> σ.
Proof.
  rewrite transition_as_spec.
  destruct (σ !! c state) as [carr|]; [|by rewrite bind_None_eq].
  rewrite bind_Some_eq. unfold transition_spec.
  destruct (sample_alpha _ _ _ _ _) as [[a g1]|];
    [|by rewrite !bind_None_eq].
  rewrite bind_Some_eq.
  destruct (sweep_spec _ _ _ _ _ _ _) as [[carr' g2]|] eqn:Hs;
    [|by rewrite !bind_None_eq].
  rewrite !bind_Some_eq. intros [= <- <- <-]. exists carr, carr', g1.
  simpl. split_and!; done.
Qed.

(** The input state's array is not written to, and the new state does not
    share it. *)
Lemma transition_frame (state s' : State) (params : Params) (data : matrix)
    (σ σ' : store) (g g' : G) :
  transition state params data σ g = Some (s', σ', g') →
  c s' ≠ c state ∧ ∀ l, l ∈ dom σ → σ' !! l = σ !! l.
Proof.
  intros Hrun. apply transition_Some in Hrun
    as (carr & carr' & g1 & Hc & _ & _ & Hfresh & ->).
  assert (∀ l, l ∈ dom σ → c s' ≠ l) as Hne.
  { intros l Hl Heq. rewrite Hfresh in Heq. subst l.
    by apply (is_fresh (dom σ)). }
  split.
  - apply Hne, elem_of_dom. by eexists.
  - intros l Hl. apply lookup_insert_ne. by apply Hne.
Qed.

Lemma sweep_spec_preserves (idxs : list nat) (carr carr' : list Z)
    (params : Params) (data : matrix) (a beta0 : Q) (g g' : G) :
  sweep_spec idxs carr params data a beta0 g = Some (carr', g') →
  length carr' = length carr.
Proof.
  revert carr g. induction idxs as [|i rest IH]; intros carr g; simpl.
  - by intros [= <- _].
  - destruct (sample_c i carr params data a beta0 g) as [[v g1]|] eqn:Hrun;
      simpl; [|done].
    intros Hrec. apply IH in Hrec. by rewrite length_insert in Hrec.
Qed.

(** As long as no label can reach the [int64] maximum, a sweep over [k]
    indices keeps the labels between the smallest and the largest plus
    [k]. *)
Lemma sweep_spec_range (idxs : list nat) (carr carr' : list Z)
    (params : Params) (data : matrix) (a beta0 : Q) (g g' : G) (lo hi : Z) :
  Forall (λ z, lo ≤ z ≤ hi)%Z carr →
  (int64_min ≤ lo)%Z → (hi + Z.of_nat (length idxs) ≤ int64_max)%Z →
  sweep_spec idxs carr params data a beta0 g = Some (carr', g') →
  Forall (λ z, lo ≤ z ≤ hi + Z.of_nat (length idxs))%Z carr'.
Proof.
  intros Hr Hlo. revert carr g hi Hr.
  induction idxs as [|i rest IH]; intros carr g hi Hr Hhi; simpl.
  - intros [= <- _]. eapply Forall_impl; [exact Hr|]. intros z ?. simpl in *.
    lia.
  - simpl in Hhi.
    destruct (sample_c i carr params data a beta0 g) as [[v g1]|] eqn:Hrun;
      simpl; [|done].
    intros Hrec.
    assert (lo ≤ v ≤ hi + 1)%Z as Hv
      by (eapply sample_c_range; [exact Hr|done|lia|exact Hrun]).
    apply (IH _ _ (hi + 1)%Z) in Hrec.
    + eapply Forall_impl; [exact Hrec|]. intros z ?. simpl in *. lia.
    + apply Forall_insert; [|done].
      eapply Forall_impl; [exact Hr|]. intros z ?. simpl in *. lia.
    + lia.
Qed.

Lemma sweep_spec_total `{!NumericsLaws R} `{!RandomSourceLaws G}
    (idxs : list nat) (carr : list Z) (params : Params) (data : matrix)
    (a beta0 : Q) (g : G) :
  Forall (λ i, i < length carr)%nat idxs → (2 ≤ length carr)%nat →
  length data = length carr →
  is_Some (sweep_spec idxs carr params data a beta0 g).
Proof.
  revert carr g. induction idxs as [|i rest IH]; intros carr g Hidx H2 Hlen.
  - by eexists.
  - simpl. apply Forall_cons in Hidx as [Hi Hrest].
    destruct (sample_c_total i carr params data a beta0 g Hi H2 Hlen)
      as [v ->].
    simpl. apply IH; rewrite ?length_insert; done.
Qed.

End Transition.

Section TransitionFacts.
Context {R G : Type} `{!Numerics R} `{!RandomSource G}.

Lemma transition_valid (n : nat) (state s' : State) (params : Params)
    (data : matrix) (σ σ' : store) (g g' : G) :
  valid_state n σ state →
  labels_at_most (int64_max - Z.of_nat n) σ state →
  length data = n →
  transition state params data σ g = Some (s', σ', g') →
  valid_state n σ' s'.
Proof.
  intros (carr0 & Hc0 & Hlen0 & Hnn0 & _) (carr1 & Hc1 & Hle) Hdata Hrun.
  rewrite Hc0 in Hc1. injection Hc1 as <-.
  apply transition_Some in Hrun
    as (carr & carr' & g1 & Hc & Ha & Hs & _ & ->).
  rewrite Hc0 in Hc. injection Hc as <-.
  pose proof (sweep_spec_preserves _ _ _ _ _ _ _ _ _ Hs) as Hlen.
  apply (sweep_spec_range _ _ _ _ _ _ _ _ _ 0%Z
           (int64_max - Z.of_nat n)%Z) in Hs.
  - exists carr'. split_and!.
    + apply lookup_insert_eq.
    + lia.
    + eapply Forall_impl; [exact Hs|]. intros z ?. simpl in *. lia.
    + by eapply sample_alpha_pos.
  - rewrite Forall_forall in Hnn0, Hle. apply Forall_forall.
    intros z Hz. split; [by apply Hnn0|by apply Hle].
  - done.
  - rewrite length_seq. lia.
Qed.

Lemma transition_total `{!NumericsLaws R} `{!RandomSourceLaws G}
    (n : nat) (state : State) (params : Params) (data : matrix)
    (σ : store) (g : G) :
  valid_state n σ state → length data = n → (2 ≤ n)%nat →
  is_Some (transition state params data σ g).
Proof.
  intros (carr & Hc & Hlen & _ & _) Hdata Hn.
  rewrite transition_as_spec, Hc, bind_Some_eq. unfold transition_spec.
  destruct (sample_alpha_total state params (length data) σ g carr Hc)
    as (idx & _ & _ & ->).
  rewrite bind_Some_eq.
  destruct (sweep_spec_total (seq 0 (length data)) carr params data
              (grid_point idx) (beta params) (rng_uniform g).2)
    as [[carr' g2] ->].
  - apply Forall_forall. intros i Hi. apply elem_of_seq in Hi. lia.
  - lia.
  - lia.
  - rewrite !bind_Some_eq. by eexists.
Qed.

(** With one observation the kernel raises: the update of index 0 has no
    other label to take the maximum of. *)
Lemma transition_single_observation (state : State) (params : Params)
    (data : matrix) (σ : store) (g : G) :
  valid_state 1 σ state → length data = 1%nat →
  transition state params data σ g = None.
Proof.
  intros (carr & Hc & Hlen & _ & _) Hdata.
  rewrite transition_as_spec, Hc, bind_Some_eq. unfold transition_spec.
  destruct (sample_alpha _ _ _ _ _) as [[a g1]|];
    [|by rewrite !bind_None_eq].
  rewrite bind_Some_eq, Hdata.
  destruct carr as [|z [|? ?]]; simpl in Hlen; try lia.
  simpl. by rewrite sample_c_single_observation.
Qed.

(** What a caller observes of a call depends on the store only through the
    labels of the input state. *)
Lemma transition_observe (state : State) (params : Params) (data : matrix)
    (σ : store) (g : G) :
  observe (transition state params data σ g)
  = carr ← σ !! c state;
    '(a, carr', g2) ← transition_spec carr state params data σ g;
    Some (a, Some carr', g2).
Proof.
  rewrite transition_as_spec. unfold observe.
  destruct (σ !! c state) as [carr|]; [|by rewrite !bind_None_eq].
  rewrite !bind_Some_eq.
  destruct (transition_spec _ _ _ _ _ _) as [[[a carr'] g2]|];
    [|by rewrite !bind_None_eq].
  rewrite !bind_Some_eq. simpl. by rewrite lookup_insert_eq.
Qed.

Lemma transition_observe_indep (state : State) (params : Params)
    (data : matrix) (σ σ' : store) (g : G) :
  σ' !! c state = σ !! c state →
  observe (transition state params data σ' g)
  = observe (transition state params data σ g).
Proof.
  intros Heq. rewrite !transition_observe, Heq.
  destruct (σ !! c state) as [carr|] eqn:Hc; [|by rewrite !bind_None_eq].
  rewrite !bind_Some_eq. unfold transition_spec.
  rewrite (sample_alpha_store_indep _ _ _ σ σ' g); [done|].
  by rewrite Heq, Hc.
Qed.

End TransitionFacts.

(** ** Claims about the transition kernel *)

(** C4. One call of the kernel samples the new [alpha] from the current
    state, copies the label vector, and for [i = 0, ..., n-1] in increasing
    order replaces entry [i] of the copy by the cluster assignment update
    computed from the copy as it then stands, with the new [alpha] in every
    update. The loop on the shared array is the fold [sweep_spec], whose step
    writes the result back before the next index; the array of the input
    state is left as it was. *)
Theorem transition_sequential_scan {R G : Type} `{!Numerics R}
    `{!RandomSource G} (state s' : State) (params : Params) (data : matrix)
    (σ σ' : store) (g g' : G) :
  transition state params data σ g = Some (s', σ', g') →
  (∀ (σ0 : store) (g0 : G),
     transition state params data σ0 g0
     = carr ← σ0 !! c state;
       '(a, carr', g2) ← transition_spec carr state params data σ0 g0;
       Some ({| alpha := a; c := fresh (dom σ0) |},
             <[fresh (dom σ0) := carr']> σ0, g2))
  ∧ (∀ (i : nat) (rest : list nat) (carr0 : list Z) (a : Q) (g0 : G),
       sweep_spec (i :: rest) carr0 params data a (beta params) g0
       = '(v, g1) ← sample_c i carr0 params data a (beta params) g0;
         sweep_spec rest (<[i := v]> carr0) params data a (beta params) g1)
  ∧ ∃ carr carr' g1,
      σ !! c state = Some carr
      ∧ sample_alpha state params (length data) σ g = Some (alpha s', g1)
      ∧ sweep_spec (seq 0 (length data)) carr params data (alpha s')
          (beta params) g1 = Some (carr', g')
      ∧ c s' ≠ c state
      ∧ σ' !! c s' = Some carr'
      ∧ σ' !! c state = Some carr.
Proof.
  intros Hrun. split_and!.
  - intros σ0 g0. apply transition_as_spec.
  - reflexivity.
  - destruct (transition_frame _ _ _ _ _ _ _ _ Hrun) as [Hne Hframe].
    destruct (transition_Some _ _ _ _ _ _ _ _ Hrun)
      as (carr & carr' & g1 & Hc & Ha & Hs & _ & ->).
    exists carr, carr', g1. split_and!; try done.
    + apply lookup_insert_eq.
    + by rewrite lookup_insert_ne.
Qed.

Lemma transition_sequential_scan_witness :
  transition (R := Q) ex_state ex_params ex_data ex_store (7%Z : Z)
  = Some ({| alpha := grid_point 170; c := 2%positive |},
          <[2%positive := [1; 1; 2]%Z]> ex_store, 1486001571%Z)
  ∧ ∃ carr carr' g1,
      ex_store !! c ex_state = Some carr
      ∧ sample_alpha (R := Q) ex_state ex_params (length ex_data) ex_store
          (7%Z : Z) = Some (grid_point 170, g1)
      ∧ sweep_spec (R := Q) (seq 0 (length ex_data)) carr ex_params ex_data
          (grid_point 170) (beta ex_params) g1 = Some (carr', 1486001571%Z)
      ∧ 2%positive ≠ c ex_state
      ∧ (<[2%positive := [1; 1; 2]%Z]> ex_store) !! 2%positive = Some carr'
      ∧ (<[2%positive := [1; 1; 2]%Z]> ex_store) !! c ex_state = Some carr.
Proof.
  assert (transition (R := Q) ex_state ex_params ex_data ex_store (7%Z : Z)
          = Some ({| alpha := grid_point 170; c := 2%positive |},
                  <[2%positive := [1; 1; 2]%Z]> ex_store, 1486001571%Z))
    as Hrun by (vm_compute; reflexivity).
  split; [exact Hrun|].
  exact (proj2 (proj2 (transition_sequential_scan (R := Q) (G := Z)
           ex_state {| alpha := grid_point 170; c := 2%positive |}
           ex_params ex_data ex_store
           (<[2%positive := [1; 1; 2]%Z]> ex_store) 7%Z 1486001571%Z Hrun))).
Defined.




(** C9. Two runs of the kernel on the same state, hyperparameters and data
    with random sources initialised from the same seed return the same
    [alpha], the same labels and the same final random source, also when the
    second run starts in the store the first run left; what a caller
    observes of a call depends on the store only through the labels of the
    input state. *)
Theorem transition_deterministic_given_seed {R G : Type} `{!Numerics R}
    `{!RandomSource G} (seed : Z) (state s1 : State) (params : Params)
    (data : matrix) (σ σ1 : store) (g1 : G) :
  transition state params data σ (rng_seed seed) = Some (s1, σ1, g1) →
  (∃ s2 σ2,
     transition state params data σ1 (rng_seed seed) = Some (s2, σ2, g1)
     ∧ alpha s2 = alpha s1
     ∧ σ2 !! c s2 = σ1 !! c s1)
  ∧ (∀ (σ' : store) (g : G), σ' !! c state = σ !! c state →
       observe (transition state params data σ' g)
       = observe (transition state params data σ g)).
Proof.
  intros Hrun. split; [|intros σ' g; apply transition_observe_indep].
  destruct (transition_frame _ _ _ _ _ _ _ _ Hrun) as [_ Hframe].
  destruct (transition_Some _ _ _ _ _ _ _ _ Hrun)
    as (carr & _ & _ & Hc & _).
  assert (σ1 !! c state = σ !! c state) as Hsame.
  { apply Hframe, elem_of_dom. by eexists. }
  pose proof (transition_observe_indep state params data σ σ1
                (rng_seed seed) Hsame) as Hobs.
  rewrite Hrun in Hobs.
  destruct (transition state params data σ1 (rng_seed seed))
    as [[[s2 σ2] g2]|]; [|done].
  simpl in Hobs. injection Hobs as Ha Hl Hg. subst g2.
  by exists s2, σ2.
Qed.

Lemma transition_deterministic_given_seed_witness :
  transition (R := Q) ex_state ex_params ex_data ex_store (rng_seed 7%Z)
  = Some ({| alpha := grid_point 170; c := 2%positive |},
          <[2%positive := [1; 1; 2]%Z]> ex_store, 1486001571%Z)
  ∧ ∃ s2 σ2,
      transition (R := Q) ex_state ex_params ex_data
        (<[2%positive := [1; 1; 2]%Z]> ex_store) (rng_seed 7%Z)
      = Some (s2, σ2, 1486001571%Z)
      ∧ alpha s2 = grid_point 170
      ∧ σ2 !! c s2 = (<[2%positive := [1; 1; 2]%Z]> ex_store) !! 2%positive.
Proof.
  assert (transition (R := Q) ex_state ex_params ex_data ex_store
            (rng_seed 7%Z)
          = Some ({| alpha := grid_point 170; c := 2%positive |},
                  <[2%positive := [1; 1; 2]%Z]> ex_store, 1486001571%Z))
    as Hrun by (vm_compute; reflexivity).
  split; [exact Hrun|].
  exact (proj1 (transition_deterministic_given_seed (R := Q) (G := Z) 7%Z
           ex_state {| alpha := grid_point 170; c := 2%positive |}
           ex_params ex_data ex_store
           (<[2%positive := [1; 1; 2]%Z]> ex_store) 1486001571%Z Hrun)).
Defined.

(** * Further properties of the chain *)

(** ** The cluster assignment update *)

Section SampleCMore.
Context {R G : Type} `{!Numerics R} `{!RandomSource G}.

Lemma members_mask_insert (carr : list Z) (cluster_id z : Z) (i : nat) :
  members_mask (<[i := z]> carr) cluster_id i = members_mask carr cluster_id i.
Proof.
  unfold members_mask. change map with (@fmap list _).
  by rewrite list_fmap_insert, list_insert_insert_eq.
Qed.

Lemma cluster_loop_mask_ext (cluster_ids : list Z) (i : nat)
    (carr carr' c_diff : list Z) (data : matrix) (dim : nat) (bvec : list Q) :
  (∀ cluster_id, members_mask carr' cluster_id i
                 = members_mask carr cluster_id i) →
  cluster_loop cluster_ids i carr' c_diff data dim bvec
  = cluster_loop cluster_ids i carr c_diff data dim bvec.
Proof.
  intros Hmask. revert bvec.
  induction cluster_ids as [|cluster_id rest IH]; intros bvec; simpl; [done|].
  rewrite Hmask. destruct (mask_rows _ data) as [rows|]; simpl; [|done].
  by rewrite IH.
Qed.

Lemma sample_c_weights_insert (i : nat) (carr : list Z) (z : Z)
    (data : matrix) (dp_alpha beta0 : Q) :
  sample_c_weights i (<[i := z]> carr) data dp_alpha beta0
  = sample_c_weights i carr data dp_alpha beta0.
Proof.
  unfold sample_c_weights, np_delete.
  rewrite length_insert, delete_insert_same.
  case_decide; [|done]. rewrite !bind_Some_eq.
  destruct (data !! i) as [row|]; [|done]. rewrite !bind_Some_eq. cbv zeta.
  rewrite (cluster_loop_mask_ext _ _ carr); [done|].
  intros cluster_id. apply members_mask_insert.
Qed.

Lemma sample_c_out_of_range (i : nat) (carr : list Z) (params : Params)
    (data : matrix) (dp_alpha beta0 : Q) (g : G) :
  (length carr ≤ i)%nat →
  sample_c i carr params data dp_alpha beta0 g = None.
Proof.
  intros Hi. unfold sample_c, np_delete. rewrite decide_False by lia. done.
Qed.

Lemma sample_c_rng (i : nat) (carr : list Z) (params : Params)
    (data : matrix) (dp_alpha beta0 : Q) (g g' : G) (v : Z) :
  sample_c i carr params data dp_alpha beta0 g = Some (v, g') →
  g' = (rng_uniform g).2.
Proof.
  intros Hrun. apply sample_c_Some in Hrun as (_ & p & idx & _ & Hs & _).
  by apply discrete_sample_log_range in Hs as [_ ->].
Qed.

End SampleCMore.

(** X1. With no other observation the update raises, whatever the data, the
    hyperparameters and the random source: for [i = 0] the draw can only
    return the new-cluster index and [cluster_ids[-1]] is taken of an empty
    array; for [i >= 1] the index is out of range. *)
Theorem sample_c_no_other_observation_raises {R G : Type} `{!Numerics R}
    `{!RandomSource G} (i : nat) (z : Z) (params : Params) (data : matrix)
    (dp_alpha beta0 : Q) (g : G) :
  sample_c i [z] params data dp_alpha beta0 g = None.
Proof.
  destruct i as [|i].
  - destruct (sample_c 0 [z] params data dp_alpha beta0 g) as [[v g']|]
      eqn:Hrun; [|done].
    apply sample_c_Some in Hrun
      as (_ & p & idx & _ & _ & [[Hidx _]|[_ (m & Hm & _)]]).
    + simpl in Hidx. lia.
    + simpl in Hm. done.
  - apply sample_c_out_of_range. simpl. lia.
Qed.

(** X2. The update of observation [i] does not look at [c[i]]: overwriting
    that entry with any label changes neither the weight vector nor the
    result. *)
Theorem sample_c_ignores_own_label {R G : Type} `{!Numerics R}
    `{!RandomSource G} (i : nat) (carr : list Z) (z : Z) (params : Params)
    (data : matrix) (dp_alpha beta0 : Q) (g : G) :
  sample_c_weights i (<[i := z]> carr) data dp_alpha beta0
  = sample_c_weights i carr data dp_alpha beta0
  ∧ sample_c i (<[i := z]> carr) params data dp_alpha beta0 g
    = sample_c i carr params data dp_alpha beta0 g.
Proof.
  split; [apply sample_c_weights_insert|].
  unfold sample_c. rewrite sample_c_weights_insert.
  unfold np_delete. by rewrite length_insert, delete_insert_same.
Qed.

(** X3. The existing cluster with the smallest label is not touched by the
    rebinding of [beta]: the first entry of the weight vector is
    [lh + log(count)] with [count] the occupancy of that label among the
    other observations and [lh] the predictive sum at the posterior
    parameters [(beta + #true, beta + #false)] over the other members of the
    cluster, [beta] the pseudo-count passed in. *)
Theorem sample_c_first_weight_at_posterior {R : Type} `{!Numerics R}
    (i : nat) (carr : list Z) (data : matrix) (dp_alpha beta0 : Q)
    (p : list R) (row : list bool) (cluster_id : Z) :
  sample_c_weights i carr data dp_alpha beta0 = Some p →
  data !! i = Some row →
  head (unique (delete i carr)) = Some cluster_id →
  ∃ t,
    spec_cluster_terms i carr data (length row) beta0 cluster_id = Some t
    ∧ ct_count t = count_eq cluster_id (delete i carr)
    ∧ p !! 0%nat
      = Some (r_add (r_sum (lh_terms (ct_alpha t) (ct_beta t) (map b2q row)))
                    (r_log (inject_Z (ct_count t)))).
Proof.
  unfold sample_c_weights.
  destruct (np_delete carr i) as [c_diff|] eqn:Hd; simpl; [|done].
  apply np_delete_Some in Hd as [Hi ->].
  intros Hp Hrow Hhead. rewrite Hrow in Hp. simpl in Hp.
  rewrite length_map in Hp.
  destruct (unique (delete i carr)) as [|cid rest] eqn:Hu; [done|].
  simpl in Hhead. injection Hhead as ->.
  destruct (cluster_loop (cluster_id :: rest) i carr (delete i carr) data
              (length row) (replicate (length row) beta0))
    as [[ts bfinal]|] eqn:Hloop; simpl in Hp; [|done].
  injection Hp as <-.
  pose proof (cluster_loop_length _ _ _ _ _ _ _ _ _ Hloop) as Hlen.
  destruct ts as [|t ts]; [done|].
  exists t.
  pose proof (cluster_loop_first_matches_spec _ _ _ _ _ _ _ _ _ _ Hi Hloop)
    as Hspec.
  split_and!; [done| |done].
  revert Hspec. unfold spec_cluster_terms, np_delete.
  rewrite decide_True by done. simpl.
  destruct (mask_rows _ data) as [rows|]; simpl; [|done].
  by intros [= <-].
Qed.

Lemma sample_c_first_weight_at_posterior_witness :
  (sample_c_weights (R := Q) 0 ex_labels ex_data 1 1
   = Some [-16275 # 16384; -20517 # 65536; -17147 # 32768]%Q
   ∧ ex_data !! 0%nat = Some [true]
   ∧ head (unique (delete 0 ex_labels)) = Some 0%Z)
  ∧ ∃ t,
      spec_cluster_terms 0 ex_labels ex_data (length [true]) 1 0%Z = Some t
      ∧ ct_count t = count_eq 0%Z (delete 0 ex_labels)
      ∧ [-16275 # 16384; -20517 # 65536; -17147 # 32768]%Q !! 0%nat
        = Some (r_add (r_sum (lh_terms (ct_alpha t) (ct_beta t)
                                (map b2q [true])))
                      (r_log (inject_Z (ct_count t)))).
Proof.
  assert (sample_c_weights (R := Q) 0 ex_labels ex_data 1 1
          = Some [-16275 # 16384; -20517 # 65536; -17147 # 32768]%Q)
    as Hp by (vm_compute; reflexivity).
  split; [split_and!; [exact Hp|reflexivity|reflexivity]|].
  exact (sample_c_first_weight_at_posterior (R := Q) 0 ex_labels ex_data 1 1
           _ [true] 0%Z Hp eq_refl eq_refl).
Defined.

(** ** Relabelling *)

Section Relabel.
Context {R G : Type} `{!Numerics R} `{!RandomSource G}.
Variable f : Z → Z.
Hypothesis f_mono : ∀ x y, (x < y)%Z → (f x < f y)%Z.

Lemma relabel_inj (x y : Z) : f x = f y → x = y.
Proof.
  intros Heq. destruct (Z.lt_trichotomy x y) as [Hlt|[->|Hgt]]; [|done|].
  - apply f_mono in Hlt. lia.
  - apply f_mono in Hgt. lia.
Qed.

Lemma insert_unique_relabel (z : Z) (l : list Z) :
  insert_unique (f z) (map f l) = map f (insert_unique z l).
Proof.
  induction l as [|y t IH]; simpl; [done|].
  destruct (Z.ltb_spec z y) as [Hlt|Hge].
  - apply f_mono in Hlt. by rewrite (proj2 (Z.ltb_lt _ _) Hlt).
  - destruct (Z.eqb_spec z y) as [->|Hne].
    + by rewrite Z.ltb_irrefl, Z.eqb_refl.
    + assert (y < z)%Z as Hlt by lia. apply f_mono in Hlt.
      rewrite (proj2 (Z.ltb_ge _ _)) by lia.
      rewrite (proj2 (Z.eqb_neq _ _)) by lia.
      simpl. by rewrite IH.
Qed.

Lemma unique_relabel (l : list Z) : unique (map f l) = map f (unique l).
Proof.
  induction l as [|y t IH]; simpl; [done|].
  by rewrite IH, insert_unique_relabel.
Qed.

Lemma count_eq_relabel (v : Z) (l : list Z) :
  count_eq (f v) (map f l) = count_eq v l.
Proof.
  unfold count_eq. f_equal.
  induction l as [|y t IH]; simpl; [done|].
  rewrite !filter_cons.
  destruct (decide (y = v)) as [->|Hne].
  - rewrite decide_True by done. simpl. by rewrite IH.
  - rewrite decide_False; [done|]. intros Heq. by apply relabel_inj in Heq.
Qed.

Lemma members_mask_relabel (carr : list Z) (cluster_id : Z) (i : nat) :
  members_mask (map f carr) (f cluster_id) i = members_mask carr cluster_id i.
Proof.
  unfold members_mask. f_equal. rewrite map_map. apply map_ext.
  intros y. apply bool_decide_ext. split; [apply relabel_inj|by intros ->].
Qed.

Lemma cluster_loop_relabel (cluster_ids : list Z) (i : nat)
    (carr c_diff : list Z) (data : matrix) (dim : nat) (bvec : list Q) :
  cluster_loop (map f cluster_ids) i (map f carr) (map f c_diff) data dim bvec
  = cluster_loop cluster_ids i carr c_diff data dim bvec.
Proof.
  revert bvec. induction cluster_ids as [|cid rest IH]; intros bvec; simpl;
    [done|].
  rewrite members_mask_relabel, count_eq_relabel.
  destruct (mask_rows _ data) as [rows|]; simpl; [|done].
  by rewrite IH.
Qed.

Lemma delete_relabel (i : nat) (l : list Z) :
  delete i (map f l) = map f (delete i l).
Proof. change map with (@fmap list _). by rewrite list_fmap_delete. Qed.

Lemma sample_c_weights_relabel (i : nat) (carr : list Z) (data : matrix)
    (dp_alpha beta0 : Q) :
  sample_c_weights i (map f carr) data dp_alpha beta0
  = sample_c_weights i carr data dp_alpha beta0.
Proof.
  unfold sample_c_weights, np_delete. rewrite length_map, delete_relabel.
  case_decide; [|done]. rewrite !bind_Some_eq.
  destruct (data !! i) as [row|]; [|done]. rewrite !bind_Some_eq. cbv zeta.
  by rewrite unique_relabel, cluster_loop_relabel.
Qed.

End Relabel.

(** X4. Labels matter through their order only. Under a strictly increasing
    relabelling [f] of the label vector the weight vector of the update is
    unchanged. When the other labels and their images are [int64] values
    below the maximum [2^63 - 1], the result corresponds as well: an existing
    cluster's label [v] comes back as [f v], and a new cluster's label, one
    more than the largest other label [m], comes back as [f m + 1]. *)
Theorem sample_c_increasing_relabelling {R G : Type} `{!Numerics R}
    `{!RandomSource G} (f : Z → Z) (i : nat) (carr : list Z)
    (params : Params) (data : matrix) (dp_alpha beta0 : Q) (g : G) :
  (∀ x y, (x < y)%Z → (f x < f y)%Z) →
  sample_c_weights i (map f carr) data dp_alpha beta0
  = sample_c_weights i carr data dp_alpha beta0
  ∧ (Forall (λ y, (int64_min ≤ y < int64_max)%Z
                  ∧ (int64_min ≤ f y < int64_max)%Z) (delete i carr) →
     sample_c i (map f carr) params data dp_alpha beta0 g
     = '(v, g') ← sample_c i carr params data dp_alpha beta0 g;
       Some (if decide (v ∈ delete i carr) then f v else (f (v - 1) + 1)%Z,
             g')).
Proof.
  intros Hmono. split; [by apply sample_c_weights_relabel|].
  intros Hrange. rewrite Forall_forall in Hrange.
  unfold sample_c, np_delete.
  rewrite length_map, (delete_relabel f), (sample_c_weights_relabel f)
    by done.
  case_decide as Hi; [|done]. rewrite !bind_Some_eq. cbv zeta.
  destruct (sample_c_weights i carr data dp_alpha beta0) as [p|]; [|done].
  rewrite !bind_Some_eq.
  destruct (discrete_sample_log p g) as [[idx g1]|]; [|done].
  rewrite !bind_Some_eq. rewrite (unique_relabel f) by done.
  change map with (@fmap list _). rewrite fmap_last, list_lookup_fmap.
  case_decide as Hlast.
  - destruct (last (unique (delete i carr))) as [m|] eqn:Hm; [|done].
    simpl. f_equal. f_equal.
    assert (m ∈ delete i carr) as Hin
      by (apply elem_of_unique; by apply last_Some_elem_of).
    destruct (Hrange m Hin) as [Hm1 Hm2].
    rewrite !wrap64_id by (unfold int64_min, int64_max in *; lia).
    rewrite decide_False.
    + by replace (m + 1 - 1)%Z with m by lia.
    + intros Hin'.
      pose proof (sorted_last_max _ _ (unique_sorted (delete i carr)) Hm
                    (m + 1)%Z) as Hle.
      rewrite elem_of_unique in Hle. specialize (Hle Hin'). lia.
  - destruct (unique (delete i carr) !! idx) as [w|] eqn:Hw; [|done].
    simpl. f_equal. f_equal.
    rewrite decide_True; [done|].
    apply elem_of_unique. by eapply list_elem_of_lookup_2.
Qed.

Lemma sample_c_increasing_relabelling_witness :
  (∀ x y, (x < y)%Z → (2 * x + 3 < 2 * y + 3)%Z)
  ∧ sample_c_weights (R := Q) 0 (map (λ z, 2 * z + 3)%Z ex_labels) ex_data 1 1
    = sample_c_weights (R := Q) 0 ex_labels ex_data 1 1.
Proof.
  assert (∀ x y, (x < y)%Z → (2 * x + 3 < 2 * y + 3)%Z) as Hmono
    by (intros x y Hlt; lia).
  split; [exact Hmono|].
  exact (proj1 (sample_c_increasing_relabelling (R := Q) (G := Z)
           (λ z, 2 * z + 3)%Z 0 ex_labels ex_params ex_data 1 1 7%Z Hmono)).
Defined.

(** ** The kernel *)

Section TransitionMore.
Context {R G : Type} `{!Numerics R} `{!RandomSource G}.

Lemma grid_point_lower (k : nat) : (1 # 10 <= grid_point k)%Q.
Proof.
  unfold grid_point.
  assert (0 <= inject_Z (Z.of_nat k) * ((10 - (1 # 10)) / 999))%Q.
  { apply Qmult_le_0_compat; [apply inject_Z_of_nat_nonneg|]. by unfold Qle. }
  set (t := (inject_Z (Z.of_nat k) * ((10 - (1 # 10)) / 999))%Q) in *.
  clearbody t. lra.
Qed.

Lemma sample_alpha_Some (state : State) (params : Params) (n : nat)
    (σ : store) (g g' : G) (a : Q) :
  sample_alpha state params n σ g = Some (a, g') →
  ∃ k, (k < 1000)%nat ∧ a = grid_point k ∧ g' = (rng_uniform g).2.
Proof.
  destruct (σ !! c state) as [carr|] eqn:Hc.
  - rewrite (sample_alpha_unfold _ _ _ _ _ carr Hc).
    destruct (discrete_sample_log _ g) as [[idx g1]|] eqn:Hd;
      [rewrite bind_Some_eq|rewrite bind_None_eq; discriminate].
    apply discrete_sample_log_range in Hd as [Hidx ->].
    rewrite length_map, length_grid in Hidx.
    rewrite lookup_grid, bind_Some_eq by done.
    intros [= <- <-]. by exists idx.
  - unfold sample_alpha. rewrite Hc, bind_None_eq. discriminate.
Qed.

Lemma sweep_spec_indices (idxs : list nat) (carr carr' : list Z)
    (params : Params) (data : matrix) (a beta0 : Q) (g g' : G) :
  sweep_spec idxs carr params data a beta0 g = Some (carr', g') →
  Forall (λ i, i < length carr)%nat idxs.
Proof.
  revert carr g. induction idxs as [|i rest IH]; intros carr g; simpl.
  - intros _. constructor.
  - destruct (sample_c i carr params data a beta0 g) as [[v g1]|] eqn:Hrun;
      simpl; [|done].
    intros Hrec. apply IH in Hrec. rewrite length_insert in Hrec.
    apply sample_c_Some in Hrun as [Hi _]. by constructor.
Qed.

Lemma sweep_spec_rng (idxs : list nat) (carr carr' : list Z)
    (params : Params) (data : matrix) (a beta0 : Q) (g g' : G) :
  sweep_spec idxs carr params data a beta0 g = Some (carr', g') →
  g' = Nat.iter (length idxs) (λ s, (rng_uniform s).2) g.
Proof.
  revert carr g. induction idxs as [|i rest IH]; intros carr g; simpl.
  - by intros [= _ <-].
  - destruct (sample_c i carr params data a beta0 g) as [[v g1]|] eqn:Hrun;
      simpl; [|done].
    intros Hrec. apply IH in Hrec. apply sample_c_rng in Hrun. subst g1 g'.
    exact (eq_sym (Nat.iter_succ_r (length rest) (λ s, (rng_uniform s).2) g)).
Qed.

Lemma transition_None_of_sweep (state : State) (params : Params)
    (data : matrix) (σ : store) (g : G) (carr : list Z) :
  σ !! c state = Some carr →
  (∀ a g1, sweep_spec (seq 0 (length data)) carr params data a
             (beta params) g1 = None) →
  transition state params data σ g = None.
Proof.
  intros Hc Hsweep.
  rewrite transition_as_spec, Hc, bind_Some_eq. unfold transition_spec.
  destruct (sample_alpha _ _ _ _ _) as [[a g1]|];
    [|by rewrite !bind_None_eq].
  by rewrite bind_Some_eq, Hsweep, !bind_None_eq.
Qed.

End TransitionMore.

(** X5. On a state with a single label and a matrix with at least one row
    the kernel raises, whatever the hyperparameters and the random source:
    the update of index 0 has no other observation. *)
Theorem transition_single_label_raises {R G : Type} `{!Numerics R}
    `{!RandomSource G} (state : State) (params : Params) (data : matrix)
    (σ : store) (g : G) (z : Z) :
  σ !! c state = Some [z] → data ≠ [] →
  transition state params data σ g = None.
Proof.
  intros Hc Hdata. apply (transition_None_of_sweep _ _ _ _ _ [z] Hc).
  intros a g1. destruct data as [|row data]; [done|].
  simpl. by rewrite sample_c_single_observation.
Qed.

Lemma transition_single_label_raises_witness :
  (({[ 1%positive := [4%Z] ]} : store) !! c ex_state = Some [4%Z]
   ∧ ex_data ≠ [])
  ∧ transition (R := Q) ex_state ex_params ex_data {[ 1%positive := [4%Z] ]}
      (7%Z : Z) = None.
Proof.
  split.
  - split; [reflexivity|discriminate].
  - apply (transition_single_label_raises (R := Q) (G := Z) ex_state
             ex_params ex_data {[ 1%positive := [4%Z] ]} 7%Z 4%Z);
      [reflexivity|discriminate].
Defined.

(** X6. When the state holds fewer labels than the matrix has rows the
    kernel raises: the sweep reaches an index beyond the label vector. *)
Theorem transition_short_state_raises {R G : Type} `{!Numerics R}
    `{!RandomSource G} (state : State) (params : Params) (data : matrix)
    (σ : store) (g : G) (carr : list Z) :
  σ !! c state = Some carr → (length carr < length data)%nat →
  transition state params data σ g = None.
Proof.
  intros Hc Hlen. apply (transition_None_of_sweep _ _ _ _ _ carr Hc).
  intros a g1.
  destruct (sweep_spec _ carr _ _ _ _ _) as [[carr' g2]|] eqn:Hs; [|done].
  apply sweep_spec_indices in Hs. rewrite Forall_forall in Hs.
  specialize (Hs (length carr)). rewrite elem_of_seq in Hs. lia.
Qed.

Lemma transition_short_state_raises_witness :
  (({[ 1%positive := [0; 1]%Z ]} : store) !! c ex_state = Some [0; 1]%Z
   ∧ (length [0; 1]%Z < length ex_data)%nat)
  ∧ transition (R := Q) ex_state ex_params ex_data
      {[ 1%positive := [0; 1]%Z ]} (7%Z : Z) = None.
Proof.
  split.
  - split; [reflexivity|simpl; lia].
  - apply (transition_short_state_raises (R := Q) (G := Z) ex_state
             ex_params ex_data {[ 1%positive := [0; 1]%Z ]} 7%Z [0; 1]%Z);
      [reflexivity|simpl; lia].
Defined.

(** X7. On an empty matrix the kernel resamples [alpha] and returns a copy
    of the label vector, unchanged, at a new location; the input array stays
    where it was. *)
Theorem transition_empty_matrix {R G : Type} `{!Numerics R}
    `{!RandomSource G} `{!NumericsLaws R} `{!RandomSourceLaws G}
    (state : State) (params : Params) (σ : store) (g : G) (carr : list Z) :
  σ !! c state = Some carr →
  ∃ k s' σ',
    (k < 1000)%nat
    ∧ transition state params [] σ g = Some (s', σ', (rng_uniform g).2)
    ∧ alpha s' = grid_point k
    ∧ c s' ≠ c state
    ∧ σ' !! c s' = Some carr
    ∧ σ' !! c state = Some carr.
Proof.
  intros Hc.
  destruct (sample_alpha_total state params 0 σ g carr Hc)
    as (k & Hk & _ & Ha).
  exists k, {| alpha := grid_point k; c := fresh (dom σ) |},
    (<[fresh (dom σ) := carr]> σ).
  assert (fresh (dom σ) ≠ c state) as Hne.
  { intros Heq. apply (is_fresh (dom σ)). rewrite Heq.
    apply elem_of_dom. by eexists. }
  split_and!; [done| |done|done|apply lookup_insert_eq
              |by rewrite lookup_insert_ne].
  rewrite transition_as_spec, Hc, bind_Some_eq. unfold transition_spec.
  change (length (@nil (list bool))) with 0%nat.
  rewrite Ha, bind_Some_eq. reflexivity.
Qed.

Lemma transition_empty_matrix_witness :
  ex_store !! c ex_state = Some ex_labels
  ∧ ∃ k s' σ',
      (k < 1000)%nat
      ∧ transition (R := Q) ex_state ex_params [] ex_store (7%Z : Z)
        = Some (s', σ', (rng_uniform 7%Z).2)
      ∧ alpha s' = grid_point k
      ∧ c s' ≠ c ex_state
      ∧ σ' !! c s' = Some ex_labels
      ∧ σ' !! c ex_state = Some ex_labels.
Proof.
  split; [reflexivity|].
  apply (transition_empty_matrix (R := Q) (G := Z) ex_state ex_params
           ex_store 7%Z ex_labels). reflexivity.
Defined.

(** X8. Whatever the hyperparameters, the labels and the number of
    observations, the value [sample_alpha] returns is one of the 1000 grid
    points and lies between 0.1 and 10; the call advances the random source
    by one uniform variate. *)
Theorem sample_alpha_within_grid_range {R G : Type} `{!Numerics R}
    `{!RandomSource G} (state : State) (params : Params) (n : nat)
    (σ : store) (g g' : G) (a : Q) :
  sample_alpha state params n σ g = Some (a, g') →
  (1 # 10 <= a)%Q ∧ (a <= 10)%Q
  ∧ (∃ k, (k < 1000)%nat ∧ a = grid_point k)
  ∧ g' = (rng_uniform g).2.
Proof.
  intros Hrun. apply sample_alpha_Some in Hrun as (k & Hk & -> & ->).
  split_and!; [apply grid_point_lower|apply grid_point_upper; lia| |done].
  by exists k.
Qed.

Lemma sample_alpha_within_grid_range_witness :
  sample_alpha (R := Q) ex_state ex_params 3 ex_store (7%Z : Z)
  = Some (grid_point 170, 1282168116%Z)
  ∧ (1 # 10 <= grid_point 170)%Q ∧ (grid_point 170 <= 10)%Q.
Proof.
  assert (sample_alpha (R := Q) ex_state ex_params 3 ex_store (7%Z : Z)
          = Some (grid_point 170, 1282168116%Z)) as Hrun
    by (vm_compute; reflexivity).
  split; [exact Hrun|].
  pose proof (sample_alpha_within_grid_range (R := Q) (G := Z) ex_state
                ex_params 3 ex_store 7%Z 1282168116%Z (grid_point 170) Hrun)
    as (Hlo & Hhi & _).
  exact (conj Hlo Hhi).
Defined.

(** X9. A call of the kernel that returns has advanced the random source by
    exactly [1 + n] uniform variates, one for [alpha] and one per
    observation, [n] the number of rows of the matrix. *)
Theorem transition_consumes_one_uniform_per_update {R G : Type}
    `{!Numerics R} `{!RandomSource G} (state s' : State) (params : Params)
    (data : matrix) (σ σ' : store) (g g' : G) :
  transition state params data σ g = Some (s', σ', g') →
  g' = Nat.iter (S (length data)) (λ s, (rng_uniform s).2) g.
Proof.
  intros Hrun. apply transition_Some in Hrun
    as (carr & carr' & g1 & _ & Ha & Hs & _).
  apply sample_alpha_Some in Ha as (_ & _ & _ & ->).
  apply sweep_spec_rng in Hs. rewrite length_seq in Hs. subst g'.
  exact (eq_sym (Nat.iter_succ_r (length data) (λ s, (rng_uniform s).2) g)).
Qed.

Lemma transition_consumes_one_uniform_per_update_witness :
  transition (R := Q) ex_state ex_params ex_data ex_store (7%Z : Z)
  = Some ({| alpha := grid_point 170; c := 2%positive |},
          <[2%positive := [1; 1; 2]%Z]> ex_store, 1486001571%Z)
  ∧ 1486001571%Z
    = Nat.iter (S (length ex_data)) (λ s : Z, (rng_uniform s).2) 7%Z.
Proof.
  assert (transition (R := Q) ex_state ex_params ex_data ex_store (7%Z : Z)
          = Some ({| alpha := grid_point 170; c := 2%positive |},
                  <[2%positive := [1; 1; 2]%Z]> ex_store, 1486001571%Z))
    as Hrun by (vm_compute; reflexivity).
  split; [exact Hrun|].
  exact (transition_consumes_one_uniform_per_update (R := Q) (G := Z)
           ex_state {| alpha := grid_point 170; c := 2%positive |}
           ex_params ex_data ex_store
           (<[2%positive := [1; 1; 2]%Z]> ex_store) 7%Z 1486001571%Z Hrun).
Defined.

(** X10. One sweep moves the labels by at most [n] upwards and never below
    the smallest label, as long as no label can pass the [int64] maximum: if
    every input label lies in [[lo, hi]] with [-2^63 <= lo] and
    [hi + n <= 2^63 - 1], every label of the returned state lies in
    [[lo, hi + n]], [n] the number of rows. *)
Theorem transition_label_range {R G : Type} `{!Numerics R}
    `{!RandomSource G} (state s' : State) (params : Params) (data : matrix)
    (σ σ' : store) (g g' : G) (carr : list Z) (lo hi : Z) :
  transition state params data σ g = Some (s', σ', g') →
  σ !! c state = Some carr →
  Forall (λ z, lo ≤ z ≤ hi)%Z carr →
  (int64_min ≤ lo)%Z → (hi + Z.of_nat (length data) ≤ int64_max)%Z →
  ∃ carr', σ' !! c s' = Some carr'
           ∧ length carr' = length carr
           ∧ Forall (λ z, lo ≤ z ≤ hi + Z.of_nat (length data))%Z carr'.
Proof.
  intros Hrun Hc Hr Hlo Hhi. apply transition_Some in Hrun
    as (carr0 & carr' & g1 & Hc0 & _ & Hs & _ & ->).
  rewrite Hc in Hc0. injection Hc0 as <-.
  exists carr'. split_and!.
  - apply lookup_insert_eq.
  - by apply sweep_spec_preserves in Hs.
  - apply (sweep_spec_range _ _ _ _ _ _ _ _ _ lo hi Hr) in Hs;
      rewrite ?length_seq in *; done.
Qed.

Lemma transition_label_range_witness :
  (transition (R := Q) ex_state ex_params ex_data ex_store (7%Z : Z)
   = Some ({| alpha := grid_point 170; c := 2%positive |},
           <[2%positive := [1; 1; 2]%Z]> ex_store, 1486001571%Z)
   ∧ ex_store !! c ex_state = Some ex_labels
   ∧ Forall (λ z, 0 ≤ z ≤ 1)%Z ex_labels
   ∧ (int64_min ≤ 0)%Z
   ∧ (1 + Z.of_nat (length ex_data) ≤ int64_max)%Z)
  ∧ ∃ carr', (<[2%positive := [1; 1; 2]%Z]> ex_store) !! 2%positive
             = Some carr'
             ∧ length carr' = length ex_labels
             ∧ Forall (λ z, 0 ≤ z ≤ 1 + Z.of_nat (length ex_data))%Z carr'.
Proof.
  assert (transition (R := Q) ex_state ex_params ex_data ex_store (7%Z : Z)
          = Some ({| alpha := grid_point 170; c := 2%positive |},
                  <[2%positive := [1; 1; 2]%Z]> ex_store, 1486001571%Z))
    as Hrun by (vm_compute; reflexivity).
  assert (Forall (λ z, 0 ≤ z ≤ 1)%Z ex_labels) as Hr
    by (repeat constructor; lia).
  assert (int64_min ≤ 0)%Z as Hlo by (unfold int64_min; lia).
  assert (1 + Z.of_nat (length ex_data) ≤ int64_max)%Z as Hhi
    by (unfold int64_max; simpl; lia).
  split; [split_and!; [exact Hrun|reflexivity|exact Hr|exact Hlo|exact Hhi]|].
  exact (transition_label_range (R := Q) (G := Z) ex_state
           {| alpha := grid_point 170; c := 2%positive |} ex_params ex_data
           ex_store (<[2%positive := [1; 1; 2]%Z]> ex_store) 7%Z
           1486001571%Z ex_labels 0%Z 1%Z Hrun eq_refl Hr Hlo Hhi).
Defined.

(** ** The forward sampler *)

Section SampleLatentMore.
Context {G : Type} `{!RandomSource G}.

Lemma length_unique_le (l : list Z) : (length (unique l) ≤ length l)%nat.
Proof.
  induction l as [|y t IH]; simpl; [done|].
  destruct (length_insert_unique y (unique t)) as [-> | ->]; lia.
Qed.

Lemma latent_loop_rng (idxs : list nat) (a : Q) (carr carr' : list Z)
    (g g' : G) :
  latent_loop idxs a carr g = Some (carr', g') →
  g' = Nat.iter (length idxs) (λ s, (rng_uniform s).2) g.
Proof.
  revert carr g. induction idxs as [|i rest IH]; intros carr g; simpl.
  - by intros [= _ <-].
  - destruct (discrete_sample _ g) as [[idx g1]|] eqn:Hd; simpl; [|done].
    intros Hrec. apply IH in Hrec.
    apply discrete_sample_range in Hd as [_ ->]. subst g'.
    exact (eq_sym (Nat.iter_succ_r (length rest) (λ s, (rng_uniform s).2) g)).
Qed.

Lemma latent_loop_length (idxs : list nat) (a : Q) (carr carr' : list Z)
    (g g' : G) :
  latent_loop idxs a carr g = Some (carr', g') → length carr' = length carr.
Proof.
  revert carr g. induction idxs as [|i rest IH]; intros carr g; simpl.
  - by intros [= <- _].
  - destruct (discrete_sample _ g) as [[idx g1]|]; simpl; [|done].
    intros Hrec. apply IH in Hrec. by rewrite length_insert in Hrec.
Qed.

Lemma prefixes_contiguous_bound (n : nat) (carr : list Z) (j : nat) (z : Z) :
  prefixes_contiguous n carr → (j < n)%nat → carr !! j = Some z →
  (0 ≤ z ≤ Z.of_nat j)%Z.
Proof.
  intros Hpre Hj Hz. destruct (Hpre (S j)) as (k & _ & Hc); [lia|].
  pose proof (contiguous_length_unique k _ Hc) as Hk.
  pose proof (length_unique_le (take (S j) carr)) as Hle.
  rewrite length_take in Hle.
  assert (z ∈ take (S j) carr) as Hin.
  { apply elem_of_take. exists j. split; [done|lia]. }
  apply Hc in Hin. lia.
Qed.

End SampleLatentMore.



(** X12. A call of the forward sampler that returns has taken [alpha] from
    one gamma draw with the configured shape and scale and then advanced the
    random source by [n - 1] uniform variates; the new state's array has [n]
    entries, and every array already in the store is as it was. *)
Theorem sample_latent_draws {G : Type} `{!RandomSource G} (params : Params)
    (data_params : DataParams) (σ σ' : store) (g g' : G) (s : State) :
  sample_latent params data_params σ g = Some (s, σ', g') →
  alpha s = (rng_gamma (alpha_shape params) (alpha_scale params) g).1
  ∧ g' = Nat.iter (dp_n data_params - 1) (λ t, (rng_uniform t).2)
           (rng_gamma (alpha_shape params) (alpha_scale params) g).2
  ∧ (∃ carr, σ' !! c s = Some carr ∧ length carr = dp_n data_params)
  ∧ ∀ l, l ∈ dom σ → σ' !! l = σ !! l.
Proof.
  unfold sample_latent.
  destruct (rng_gamma _ _ g) as [a g1]. cbn [fst snd].
  destruct (latent_loop _ a _ g1) as [[carr g2]|] eqn:Hloop; simpl; [|done].
  intros [= <- <- <-]. simpl.
  pose proof (latent_loop_rng _ _ _ _ _ _ Hloop) as Hg.
  pose proof (latent_loop_length _ _ _ _ _ _ Hloop) as Hlen.
  rewrite length_seq in Hg. rewrite length_replicate in Hlen.
  split_and!; [done|done| |].
  - exists carr. split; [apply lookup_insert_eq|done].
  - intros l Hl. apply lookup_insert_ne. intros <-.
    by apply (is_fresh (dom σ)).
Qed.

Lemma sample_latent_draws_witness :
  sample_latent ex_params {| dp_n := 3; dp_dim := 1 |} ∅ (7%Z : Z)
  = Some ({| alpha := 588977485 # 536870912; c := 1%positive |},
          {[ 1%positive := [0; 0; 0]%Z ]}, 712265938%Z)
  ∧ 712265938%Z
    = Nat.iter (dp_n {| dp_n := 3; dp_dim := 1 |} - 1)
        (λ t : Z, (rng_uniform t).2)
        (rng_gamma (alpha_shape ex_params) (alpha_scale ex_params) 7%Z).2.
Proof.
  assert (sample_latent ex_params {| dp_n := 3; dp_dim := 1 |} ∅ (7%Z : Z)
          = Some ({| alpha := 588977485 # 536870912; c := 1%positive |},
                  {[ 1%positive := [0; 0; 0]%Z ]}, 712265938%Z)) as Hrun
    by (vm_compute; reflexivity).
  split; [exact Hrun|].
  exact (proj1 (proj2 (sample_latent_draws (G := Z) ex_params
           {| dp_n := 3; dp_dim := 1 |} ∅ _ 7%Z 712265938%Z _ Hrun))).
Defined.



(** ** The data resampling step *)

Section SampleDataMore.
Context {G : Type} `{!RandomSource G}.








End SampleDataMore.



(** ** Composing the operations *)



(** X16. Starting a chain: for [2 <= n <= 2^62] the start state followed by
    one call of the kernel on a matrix of [n] rows always returns; the new
    state has [n] non-negative labels and [alpha] between the grid's ends, it
    lives at a location of its own, and the start state's labels are as they
    were. The start labels are below [n] and a sweep adds at most [n], so
    with [n <= 2^62] no label passes the [int64] maximum. *)
Theorem start_state_then_transition {R G : Type} `{!Numerics R}
    `{!RandomSource G} `{!NumericsLaws R} `{!RandomSourceLaws G}
    (n : nat) (params : Params) (data_params : DataParams) (data : matrix)
    (σ : store) (g : G) :
  (0 < alpha_shape params)%Q → (0 < alpha_scale params)%Q →
  dp_n data_params = n → length data = n → (2 ≤ n)%nat →
  (2 * Z.of_nat n ≤ int64_max + 1)%Z →
  ∃ s σ1 g1 s' σ2 g2,
    start_state params data_params σ g = Some (s, σ1, g1)
    ∧ transition s params data σ1 g1 = Some (s', σ2, g2)
    ∧ valid_state n σ2 s'
    ∧ (1 # 10 <= alpha s')%Q ∧ (alpha s' <= 10)%Q
    ∧ c s' ≠ c s
    ∧ σ2 !! c s = σ1 !! c s.
Proof.
  intros Hsh Hsc Hdp Hdata Hn Hsmall.
  destruct (sample_latent_result params data_params σ g Hsh Hsc)
    as (s & σ1 & g1 & carr & Hstart & Hc & _ & Ha & Hlen & _ & Hpre); [lia|].
  assert (valid_state n σ1 s) as Hvalid.
  { exists carr. destruct (Hpre (dp_n data_params)) as (k & _ & Hcont); [lia|].
    rewrite take_ge in Hcont by lia.
    split_and!; [done|lia|by eapply contiguous_nonneg|].
    rewrite Ha. by apply rng_gamma_pos. }
  assert (labels_at_most (int64_max - Z.of_nat n) σ1 s) as Hbound.
  { exists carr. split; [done|]. apply Forall_forall. intros z Hz.
    apply list_elem_of_lookup_1 in Hz as [j Hj].
    pose proof (lookup_lt_Some _ _ _ Hj) as Hjn.
    pose proof (prefixes_contiguous_bound (dp_n data_params) carr j z Hpre)
      as Hzj.
    specialize (Hzj ltac:(lia) Hj). lia. }
  destruct (transition_total n s params data σ1 g1 Hvalid Hdata Hn)
    as [[[s' σ2] g2] Hrun].
  exists s, σ1, g1, s', σ2, g2.
  pose proof (transition_frame _ _ _ _ _ _ _ _ Hrun) as [Hne Hframe].
  destruct (transition_Some _ _ _ _ _ _ _ _ Hrun)
    as (_ & _ & g3 & _ & Hal & _).
  apply sample_alpha_Some in Hal as (k & Hk & Hgrid & _).
  split_and!; [done|done|by eapply transition_valid| | |done|].
  - rewrite Hgrid. apply grid_point_lower.
  - rewrite Hgrid. apply grid_point_upper. lia.
  - apply Hframe, elem_of_dom. by eexists.
Qed.

Lemma start_state_then_transition_witness :
  ((0 < alpha_shape ex_params)%Q ∧ (0 < alpha_scale ex_params)%Q
   ∧ dp_n {| dp_n := 3; dp_dim := 1 |} = 3%nat ∧ length ex_data = 3%nat
   ∧ (2 ≤ 3)%nat ∧ (2 * Z.of_nat 3 ≤ int64_max + 1)%Z)
  ∧ ∃ s σ1 g1 s' σ2 g2,
      start_state ex_params {| dp_n := 3; dp_dim := 1 |} ∅ (7%Z : Z)
      = Some (s, σ1, g1)
      ∧ transition (R := Q) s ex_params ex_data σ1 g1 = Some (s', σ2, g2)
      ∧ valid_state 3 σ2 s'
      ∧ (1 # 10 <= alpha s')%Q ∧ (alpha s' <= 10)%Q
      ∧ c s' ≠ c s
      ∧ σ2 !! c s = σ1 !! c s.
Proof.
  assert (2 * Z.of_nat 3 ≤ int64_max + 1)%Z as Hsmall
    by (unfold int64_max; lia).
  split.
  - split_and!; [reflexivity|reflexivity|reflexivity|reflexivity|lia
                 |exact Hsmall].
  - exact (start_state_then_transition (R := Q) (G := Z) 3 ex_params
             {| dp_n := 3; dp_dim := 1 |} ex_data ∅ 7%Z eq_refl eq_refl
             eq_refl eq_refl (le_S _ _ (le_n 2)) Hsmall).
Defined.

(** X17. The number of clusters of a state the kernel returns, the quantity
    the self-test records as [len(unique(state.c))], lies between 1 and [n]
    when the input state has one label per row of a non-empty matrix. *)
Theorem transition_cluster_count {R G : Type} `{!Numerics R}
    `{!RandomSource G} (state s' : State) (params : Params) (data : matrix)
    (σ σ' : store) (g g' : G) (carr : list Z) :
  transition state params data σ g = Some (s', σ', g') →
  σ !! c state = Some carr → length carr = length data →
  (1 ≤ length data)%nat →
  ∃ carr', σ' !! c s' = Some carr'
           ∧ (1 ≤ length (unique carr') ≤ length data)%nat.
Proof.
  intros Hrun Hc Hlen Hn. apply transition_Some in Hrun
    as (carr0 & carr' & g1 & Hc0 & _ & Hs & _ & ->).
  rewrite Hc in Hc0. injection Hc0 as <-.
  apply sweep_spec_preserves in Hs as Hlen'.
  exists carr'. split; [apply lookup_insert_eq|].
  pose proof (length_unique_le carr') as Hle. split; [|lia].
  destruct (unique carr') eqn:Hu; [|simpl; lia].
  apply unique_nil_inv in Hu. subst carr'. simpl in Hlen'. lia.
Qed.

Lemma transition_cluster_count_witness :
  (transition (R := Q) ex_state ex_params ex_data ex_store (7%Z : Z)
   = Some ({| alpha := grid_point 170; c := 2%positive |},
           <[2%positive := [1; 1; 2]%Z]> ex_store, 1486001571%Z)
   ∧ ex_store !! c ex_state = Some ex_labels
   ∧ length ex_labels = length ex_data ∧ (1 ≤ length ex_data)%nat)
  ∧ ∃ carr', (<[2%positive := [1; 1; 2]%Z]> ex_store) !! 2%positive
             = Some carr'
             ∧ (1 ≤ length (unique carr') ≤ length ex_data)%nat.
Proof.
  assert (transition (R := Q) ex_state ex_params ex_data ex_store (7%Z : Z)
          = Some ({| alpha := grid_point 170; c := 2%positive |},
                  <[2%positive := [1; 1; 2]%Z]> ex_store, 1486001571%Z))
    as Hrun by (vm_compute; reflexivity).
  split; [split_and!; [exact Hrun|reflexivity|reflexivity|simpl; lia]|].
  exact (transition_cluster_count (R := Q) (G := Z) ex_state
           {| alpha := grid_point 170; c := 2%positive |} ex_params ex_data
           ex_store (<[2%positive := [1; 1; 2]%Z]> ex_store) 7%Z
           1486001571%Z ex_labels Hrun eq_refl eq_refl
           (le_S _ _ (le_S _ _ (le_n 1)))).
Defined.

Section RelabelData.
Context {G : Type} `{!RandomSource G}.
Variable f : Z → Z.
Hypothesis f_mono : ∀ x y, (x < y)%Z → (f x < f y)%Z.



End RelabelData.


